(** * Additive autoencoder experiment script: a shallow embedding

    The script compares PCA against a weight-tied single-layer autoencoder
    ("1-Sym") on the residual of the PCA reconstruction.  Tensors and losses
    are modelled over the real numbers (exact arithmetic); NumPy arrays and
    torch tensors of rank two are rows of reals together with their shape.
    Library code (Adam, autograd, the shuffling data loader, scikit-learn's
    PCA) enters as section variables. *)

From Stdlib Require Import Floats Uint63.
From Stdlib Require Import String DecimalString Reals Lra Lia ZArith Bool List.
Import ListNotations.

Open Scope R_scope.

(* ------------------------------------------------------------------ *)
(** ** The hidden activation of [OneSymAutoencoder.forward] *)

Module Activation.

(** [torch.sigmoid], the logistic function. *)
Definition sigmoid (x : R) : R := 1 / (1 + exp (- x)).

(** [hidden = 2.0 * torch.sigmoid(2.0 * z) - 1.0], on one entry. *)
Definition act (z : R) : R := 2 * sigmoid (2 * z) - 1.

Lemma exp_neg_double (z : R) : exp (- (2 * z)) = / (exp z * exp z).
Proof.
  replace (- (2 * z)) with (- (z + z)) by lra.
  now rewrite exp_Ropp, exp_plus.
Qed.

Lemma act_zero : act 0 = 0.
Proof.
  unfold act, sigmoid.
  replace (- (2 * 0)) with 0 by lra.
  rewrite exp_0. lra.
Qed.

(** C10: for every real z, 2*sigmoid(2z) - 1 = 2/(1+exp(-2z)) - 1 = tanh z. *)
Theorem act_is_tanh (z : R) :
  act z = 2 / (1 + exp (- (2 * z))) - 1 /\ act z = tanh z.
Proof.
  split.
  - unfold act, sigmoid. field.
    pose proof (exp_pos (- (2 * z))). lra.
  - unfold act, sigmoid, tanh, sinh, cosh.
    rewrite exp_neg_double, exp_Ropp.
    pose proof (exp_pos z) as Hz.
    field. repeat split; nra.
Qed.

(** *** Shape of the activation *)

Lemma sigmoid_range (x : R) : 0 < sigmoid x < 1.
Proof.
  unfold sigmoid. pose proof (exp_pos (- x)) as He.
  split.
  - apply Rdiv_lt_0_compat; lra.
  - apply (Rmult_lt_reg_r (1 + exp (- x))); [lra|]. field_simplify; lra.
Qed.

Lemma sigmoid_neg (x : R) : sigmoid (- x) = 1 - sigmoid x.
Proof.
  unfold sigmoid. rewrite Ropp_involutive, exp_Ropp.
  pose proof (exp_pos x). field. split; lra.
Qed.

Lemma sigmoid_increasing (x y : R) : x < y -> sigmoid x < sigmoid y.
Proof.
  intros Hxy. unfold sigmoid.
  pose proof (exp_pos (- x)). pose proof (exp_pos (- y)).
  assert (exp (- y) < exp (- x)) by (apply exp_increasing; lra).
  unfold Rdiv. rewrite !Rmult_1_l.
  apply Rinv_lt_contravar; [nra | lra].
Qed.

(** Over the reals (float32 rounding left out), the hidden activation is
    odd, strictly increasing and stays strictly between -1 and 1. *)
Theorem act_odd_monotone_bounded (z z' : R) :
  act (- z) = - act z /\
  -1 < act z < 1 /\
  (z < z' -> act z < act z').
Proof.
  unfold act. split; [|split].
  - replace (2 * - z) with (- (2 * z)) by lra. rewrite sigmoid_neg. lra.
  - pose proof (sigmoid_range (2 * z)). lra.
  - intros Hz. assert (sigmoid (2 * z) < sigmoid (2 * z'))
      by (apply sigmoid_increasing; lra). lra.
Qed.


Lemma act_neg (z : R) : act (- z) = - act z.
Proof.
  unfold act. replace (2 * - z) with (- (2 * z)) by lra.
  rewrite sigmoid_neg. lra.
Qed.

End Activation.

(* ------------------------------------------------------------------ *)
(** ** Rank-two tensors (torch tensors and NumPy arrays) *)

Module Tensor.

(** A rank-two array: its shape and its rows. *)
Record tensor : Type := mkT { nrow : nat; ncol : nat; rows : list (list R) }.

(** The rows agree with the declared shape. *)
Definition wf (T : tensor) : Prop :=
  length (rows T) = nrow T /\ Forall (fun r => length r = ncol T) (rows T).

Definition has_shape (T : tensor) (n m : nat) : Prop :=
  wf T /\ nrow T = n /\ ncol T = m.

Definition row (i : nat) (T : tensor) : list R := nth i (rows T) [].
Definition col (j : nat) (T : tensor) : list R :=
  map (fun r => nth j r 0) (rows T).

(** [T[i, j]] *)
Definition get (T : tensor) (i j : nat) : R := nth j (row i T) 0.

(** [T.t()] / [T.T] *)
Definition t (T : tensor) : tensor :=
  mkT (ncol T) (nrow T) (map (fun j => col j T) (seq 0 (ncol T))).

Fixpoint dot (u v : list R) : R :=
  match u, v with
  | a :: u', b :: v' => a * b + dot u' v'
  | _, _ => 0
  end.

(** [torch.matmul(A, B)] / [A @ B]; a shape mismatch raises. *)
Definition matmul (A B : tensor) : option tensor :=
  if Nat.eqb (ncol A) (nrow B)
  then Some (mkT (nrow A) (ncol B)
               (map (fun ra => map (fun j => dot ra (col j B)) (seq 0 (ncol B)))
                    (rows A)))
  else None.

(** Entrywise application of a scalar function. *)
Definition tmap (f : R -> R) (T : tensor) : tensor :=
  mkT (nrow T) (ncol T) (map (map f) (rows T)).

Fixpoint zip_with (f : R -> R -> R) (u v : list R) : list R :=
  match u, v with
  | a :: u', b :: v' => f a b :: zip_with f u' v'
  | _, _ => []
  end.

(** Entrywise binary operation on two arrays of one shape. *)
Definition tzip (f : R -> R -> R) (A B : tensor) : tensor :=
  mkT (nrow A) (ncol A)
      (map (fun p => zip_with f (fst p) (snd p)) (combine (rows A) (rows B))).

(** [A - B] *)
Definition sub : tensor -> tensor -> tensor := tzip Rminus.

(** Sum of a list of reals, head first. *)
Definition lsum (l : list R) : R := fold_right Rplus 0 l.

(** [sum_{k < n} f k] *)
Definition rsum (f : nat -> R) (n : nat) : R := lsum (map f (seq 0 n)).

(** [T.mean()] over all entries. *)
Definition mean (T : tensor) : R :=
  lsum (map lsum (rows T)) / INR (nrow T * ncol T).

(** [((A - B) ** 2).mean()] *)
Definition mse (A B : tensor) : R := mean (tmap (fun d => d * d) (sub A B)).

(** [T[:, :k]] *)
Definition take_cols (k : nat) (T : tensor) : tensor :=
  mkT (nrow T) (Nat.min k (ncol T)) (map (firstn k) (rows T)).

(** *** Facts about indexing *)

Lemma nth_nil_R (j : nat) : nth j (@nil R) 0 = 0.
Proof. now destruct j. Qed.

Lemma row_length (T : tensor) (i : nat) :
  wf T -> (i < nrow T)%nat -> length (row i T) = ncol T.
Proof.
  intros [Hlen Hall] Hi. unfold row.
  rewrite Forall_forall in Hall. apply Hall, nth_In. lia.
Qed.

Lemma col_length (T : tensor) (j : nat) : length (col j T) = length (rows T).
Proof. unfold col. apply length_map. Qed.

Lemma nth_col (T : tensor) (i j : nat) : nth i (col j T) 0 = get T i j.
Proof.
  unfold col, get, row.
  rewrite <- (nth_nil_R j) at 1.
  now rewrite (map_nth (fun r => nth j r 0)).
Qed.

Lemma row_t (T : tensor) (i : nat) :
  (i < ncol T)%nat -> row i (t T) = col i T.
Proof.
  intros Hi. unfold row, t; simpl.
  rewrite (nth_indep _ [] (col 0 T)) by (rewrite length_map, length_seq; lia).
  rewrite (map_nth (fun j => col j T)), seq_nth by lia. reflexivity.
Qed.

Lemma get_t (T : tensor) (i j : nat) :
  (i < ncol T)%nat -> get (t T) i j = get T j i.
Proof.
  intros Hi. unfold get at 1. rewrite row_t by exact Hi. apply nth_col.
Qed.

Lemma wf_t (T : tensor) : wf T -> wf (t T).
Proof.
  intros [Hlen Hall]. split; simpl.
  - now rewrite length_map, length_seq.
  - apply Forall_forall. intros r Hr.
    apply in_map_iff in Hr as [j [<- _]].
    now rewrite col_length.
Qed.

Lemma rsum_ext (f g : nat -> R) (n : nat) :
  (forall k, (k < n)%nat -> f k = g k) -> rsum f n = rsum g n.
Proof.
  intros H. unfold rsum. f_equal. apply map_ext_in.
  intros k Hk. apply in_seq in Hk. apply H. lia.
Qed.

Lemma dot_rsum (u v : list R) :
  length u = length v ->
  dot u v = rsum (fun k => nth k u 0 * nth k v 0) (length u).
Proof.
  revert v. induction u as [|a u IH]; intros [|b v] Hlen; simpl in *;
    try discriminate; try reflexivity.
  unfold rsum in *. simpl. rewrite <- seq_shift, map_map.
  rewrite IH by lia. reflexivity.
Qed.

Lemma matmul_shape (A B C : tensor) :
  matmul A B = Some C -> nrow C = nrow A /\ ncol C = ncol B.
Proof.
  unfold matmul. destruct (Nat.eqb _ _); [|discriminate].
  intros [= <-]. now split.
Qed.

Lemma wf_matmul (A B C : tensor) :
  wf A -> matmul A B = Some C -> wf C.
Proof.
  unfold matmul. destruct (Nat.eqb _ _); [|discriminate].
  intros [Hlen _] [= <-]. split; simpl.
  - now rewrite length_map.
  - apply Forall_forall. intros r Hr.
    apply in_map_iff in Hr as [ra [<- _]].
    now rewrite length_map, length_seq.
Qed.

Lemma get_matmul (A B C : tensor) (i j : nat) :
  wf A -> wf B -> matmul A B = Some C ->
  (i < nrow A)%nat -> (j < ncol B)%nat ->
  get C i j = rsum (fun k => get A i k * get B k j) (ncol A).
Proof.
  unfold matmul. destruct (Nat.eqb_spec (ncol A) (nrow B)) as [Hq|]; [|discriminate].
  intros HA HB [= <-] Hi Hj. unfold get at 1, row at 1; simpl.
  rewrite (nth_indep _ [] (map (fun j => dot [] (col j B)) (seq 0 (ncol B))))
    by (rewrite length_map; destruct HA; lia).
  rewrite (map_nth (fun ra => map (fun j => dot ra (col j B)) (seq 0 (ncol B)))).
  rewrite (nth_indep _ 0 (dot (nth i (rows A) []) (col 0 B)))
    by (rewrite length_map, length_seq; lia).
  rewrite (map_nth (fun j => dot (nth i (rows A) []) (col j B))), seq_nth by lia.
  simpl. fold (row i A).
  rewrite dot_rsum by (rewrite row_length, col_length by assumption; destruct HB; lia).
  rewrite row_length by assumption.
  apply rsum_ext. intros k _. now rewrite nth_col.
Qed.

Lemma wf_tmap (f : R -> R) (T : tensor) : wf T -> wf (tmap f T).
Proof.
  intros [Hlen Hall]. split; simpl.
  - now rewrite length_map.
  - apply Forall_forall. intros r Hr.
    apply in_map_iff in Hr as [r0 [<- Hr0]].
    rewrite length_map. rewrite Forall_forall in Hall. now apply Hall.
Qed.

Lemma get_tmap (f : R -> R) (T : tensor) (i j : nat) :
  wf T -> (i < nrow T)%nat -> (j < ncol T)%nat ->
  get (tmap f T) i j = f (get T i j).
Proof.
  intros HT Hi Hj. unfold get, row; simpl.
  rewrite (nth_indep _ [] (map f [])) by (rewrite length_map; destruct HT; lia).
  rewrite (map_nth (map f)).
  rewrite (nth_indep _ 0 (f 0)).
  - now rewrite map_nth.
  - rewrite length_map. fold (row i T). rewrite row_length; assumption.
Qed.

Lemma length_zip_with (f : R -> R -> R) (u v : list R) :
  length (zip_with f u v) = Nat.min (length u) (length v).
Proof.
  revert v. induction u as [|a u IH]; intros [|b v]; simpl; try reflexivity.
  now rewrite IH.
Qed.

Lemma nth_zip_with (f : R -> R -> R) (u v : list R) (j : nat) :
  (j < length u)%nat -> (j < length v)%nat ->
  nth j (zip_with f u v) 0 = f (nth j u 0) (nth j v 0).
Proof.
  revert v j. induction u as [|a u IH]; intros [|b v] [|j]; simpl; intros;
    try lia; try reflexivity.
  apply IH; lia.
Qed.

Lemma wf_take_cols (k : nat) (T : tensor) : wf T -> wf (take_cols k T).
Proof.
  intros [Hlen Hall]. split; simpl.
  - now rewrite length_map.
  - apply Forall_forall. intros r Hr.
    apply in_map_iff in Hr as [r0 [<- Hr0]].
    rewrite Forall_forall in Hall. rewrite length_firstn, (Hall r0 Hr0).
    reflexivity.
Qed.

Lemma wf_tzip (f : R -> R -> R) (A B : tensor) :
  wf A -> wf B -> nrow A = nrow B -> ncol A = ncol B -> wf (tzip f A B).
Proof.
  intros [HAl HAr] [HBl HBr] Hr Hc. split; simpl.
  - rewrite length_map, length_combine. lia.
  - apply Forall_forall. intros r Hin.
    apply in_map_iff in Hin as [[ra rb] [<- Hin]].
    rewrite Forall_forall in HAr, HBr.
    rewrite length_zip_with; simpl.
    rewrite (HAr ra (in_combine_l _ _ _ _ Hin)).
    rewrite (HBr rb (in_combine_r _ _ _ _ Hin)). lia.
Qed.

Lemma get_tzip (f : R -> R -> R) (A B : tensor) (i j : nat) :
  wf A -> wf B -> nrow A = nrow B -> ncol A = ncol B ->
  (i < nrow A)%nat -> (j < ncol A)%nat ->
  get (tzip f A B) i j = f (get A i j) (get B i j).
Proof.
  intros HA HB Hr Hc Hi Hj.
  pose proof (row_length A i HA Hi) as HlA.
  pose proof (row_length B i HB ltac:(lia)) as HlB.
  destruct HA as [HAl _], HB as [HBl _].
  unfold get, row in *; simpl.
  rewrite (nth_indep _ [] ((fun p => zip_with f (fst p) (snd p))
                             (@nil R, @nil R)))
    by (rewrite length_map, length_combine; lia).
  rewrite (map_nth (fun p : list R * list R => zip_with f (fst p) (snd p))).
  rewrite combine_nth by lia. simpl.
  apply nth_zip_with; lia.
Qed.

Lemma lsum_rsum (l : list R) : lsum l = rsum (fun j => nth j l 0) (length l).
Proof.
  induction l as [|a l IH]; [reflexivity|].
  unfold rsum in *. simpl. rewrite <- seq_shift, map_map.
  now rewrite <- IH.
Qed.

Lemma rsum_zero (n : nat) : rsum (fun _ => 0) n = 0.
Proof.
  unfold rsum. induction (seq 0 n) as [|a l IH]; simpl in *; lra.
Qed.

(** The mean over all entries as a double sum. *)
Lemma mean_rsum (T : tensor) :
  wf T ->
  mean T = rsum (fun i => rsum (fun j => get T i j) (ncol T)) (nrow T)
           / INR (nrow T * ncol T).
Proof.
  intros HT. unfold mean. f_equal.
  rewrite lsum_rsum, length_map. destruct HT as [Hlen Hall]. rewrite Hlen.
  apply rsum_ext. intros i Hi.
  change 0 with (lsum []) at 1. rewrite (map_nth lsum).
  rewrite lsum_rsum. fold (row i T).
  rewrite row_length by (try split; assumption). reflexivity.
Qed.

(** The mean squared difference as a double sum. *)
Lemma mse_rsum (A B : tensor) (n m : nat) :
  has_shape A n m -> has_shape B n m ->
  mse A B
  = rsum (fun i => rsum (fun j => (get A i j - get B i j)
                                  * (get A i j - get B i j)) m) n
    / INR (n * m).
Proof.
  intros (HA & HAr & HAc) (HB & HBr & HBc). unfold mse.
  assert (Hs : wf (sub A B)) by (apply wf_tzip; try assumption; lia).
  rewrite mean_rsum by (apply wf_tmap, Hs). simpl nrow. simpl ncol.
  rewrite HAr, HAc. f_equal.
  apply rsum_ext. intros i Hi. apply rsum_ext. intros j Hj.
  rewrite get_tmap by (try assumption; simpl; lia).
  unfold sub. rewrite get_tzip by (try assumption; lia). reflexivity.
Qed.

(** *** Sums *)

Lemma lsum_map_opp (f : nat -> R) (l : list nat) :
  lsum (map (fun k => - f k) l) = - lsum (map f l).
Proof. induction l as [|a l IH]; simpl in *; [lra | rewrite IH; lra]. Qed.

Lemma rsum_opp (f : nat -> R) (n : nat) :
  rsum (fun k => - f k) n = - rsum f n.
Proof. apply lsum_map_opp. Qed.

Lemma rsum_le (f g : nat -> R) (n : nat) :
  (forall k, (k < n)%nat -> f k <= g k) -> rsum f n <= rsum g n.
Proof.
  intros H. unfold rsum.
  assert (Hin : forall k, In k (seq 0 n) -> f k <= g k)
    by (intros k Hk; apply in_seq in Hk; apply H; lia).
  clear H. induction (seq 0 n) as [|a l IH]; simpl in *; [lra|].
  pose proof (Hin a (or_introl eq_refl)).
  assert (lsum (map f l) <= lsum (map g l)) by (apply IH; auto).
  lra.
Qed.


Lemma rsum_nonneg (f : nat -> R) (n : nat) :
  (forall k, (k < n)%nat -> 0 <= f k) -> 0 <= rsum f n.
Proof.
  intros H. rewrite <- (rsum_zero n). now apply rsum_le.
Qed.

End Tensor.

(* ------------------------------------------------------------------ *)
(** ** The 1-Sym layer *)

Module OneSym.
Import Tensor Activation.

(** [class OneSymAutoencoder(nn.Module)]: its only parameter is [self.W],
    of shape [hidden_dim, input_dim]. *)
Record OneSymAutoencoder : Type := mkModel { W : tensor }.

(** [OneSymAutoencoder.forward]:
    z = matmul(W, x.t()); hidden = 2*sigmoid(2*z) - 1;
    out = matmul(W.t(), hidden).t() *)
Definition forward (self : OneSymAutoencoder) (x : tensor) : option tensor :=
  match matmul (W self) (t x) with
  | None => None
  | Some z =>
      let hidden := tmap act z in
      match matmul (t (W self)) hidden with
      | None => None
      | Some out => Some (t out)
      end
  end.

(** The entry [b, j] of (W^T (2 sigmoid(2 (W x^T)) - 1))^T, written out:
    the decoder uses W[k, j], the encoder W[k, i], and nothing is added. *)
Definition tied_entry (Wt x : tensor) (b j : nat) : R :=
  rsum (fun k =>
          get Wt k j *
          (2 * sigmoid (2 * rsum (fun i => get Wt k i * get x b i) (ncol Wt)) - 1))
       (nrow Wt).

(** On matching shapes both products are defined. *)
Lemma forward_defined (M : OneSymAutoencoder) (x : tensor)
    (hidden_dim input_dim batch_size : nat) :
  has_shape (W M) hidden_dim input_dim ->
  has_shape x batch_size input_dim ->
  exists z out,
    matmul (W M) (t x) = Some z /\
    matmul (t (W M)) (tmap act z) = Some out /\
    forward M x = Some (t out) /\
    has_shape z hidden_dim batch_size /\
    has_shape out input_dim batch_size.
Proof.
  intros (HW & Hh & Hn) (Hx & Hbs & Hxn).
  unfold forward.
  destruct (matmul (W M) (t x)) as [z|] eqn:Ez.
  2:{ unfold matmul in Ez. simpl in Ez.
      rewrite Hn, Hxn, Nat.eqb_refl in Ez. discriminate. }
  pose proof (matmul_shape _ _ _ Ez) as [Hzr Hzc]. simpl in Hzc.
  pose proof (wf_matmul _ _ _ HW Ez) as Hz.
  destruct (matmul (t (W M)) (tmap act z)) as [o|] eqn:Eo.
  2:{ unfold matmul in Eo. simpl in Eo.
      rewrite Hzr, Nat.eqb_refl in Eo. discriminate. }
  pose proof (matmul_shape _ _ _ Eo) as [Hor Hoc]. simpl in Hor, Hoc.
  pose proof (wf_matmul _ _ _ (wf_t _ HW) Eo) as Ho.
  exists z, o. split; [reflexivity|]. split; [exact Eo|].
  split; [now rewrite ?Eo|].
  split; (split; [assumption | split; lia]).
Qed.

(** The decoder product, entry by entry. *)
Lemma get_decoded (Wt z out : tensor) (b j : nat) :
  wf Wt -> wf z -> nrow z = nrow Wt ->
  matmul (t Wt) (tmap act z) = Some out ->
  (b < ncol z)%nat -> (j < ncol Wt)%nat ->
  get out j b = rsum (fun k => get Wt k j * act (get z k b)) (nrow Wt).
Proof.
  intros HW Hz Hzr Eo Hb Hj.
  rewrite (get_matmul _ _ _ j b (wf_t _ HW) (wf_tmap _ _ Hz) Eo)
    by (simpl; lia).
  simpl ncol. apply rsum_ext. intros k Hk.
  rewrite get_t by lia. now rewrite get_tmap by (try assumption; lia).
Qed.

(** On an all-zero batch the output is all zero: nothing is added to the
    two products. *)
Lemma forward_zero_input (M : OneSymAutoencoder) (x out : tensor)
    (hidden_dim input_dim batch_size : nat) :
  has_shape (W M) hidden_dim input_dim ->
  has_shape x batch_size input_dim ->
  (forall b i, (b < batch_size)%nat -> (i < input_dim)%nat -> get x b i = 0) ->
  forward M x = Some out ->
  forall b j, (b < batch_size)%nat -> (j < input_dim)%nat -> get out b j = 0.
Proof.
  intros HW Hx Hzero Hout b j Hb Hj.
  destruct (forward_defined M x _ _ _ HW Hx)
    as (z & o & Ez & Eo & Hf & (Hz & Hzr & Hzc) & (Ho & Hor & Hoc)).
  destruct HW as (HW & Hh & Hn). destruct Hx as (Hx & Hbs & Hxn).
  assert (out = t o) by congruence. subst out.
  rewrite get_t by lia.
  rewrite (get_decoded (W M) z o b j) by (try assumption; lia).
  assert (Hall : forall k, (k < nrow (W M))%nat ->
                           get (W M) k j * act (get z k b) = 0).
  { intros k Hk.
    rewrite (get_matmul _ _ _ k b HW (wf_t _ Hx) Ez) by (simpl; lia).
    assert (Hin : rsum (fun i => get (W M) k i * get (t x) i b) (ncol (W M)) = 0).
    { unfold rsum. rewrite (map_ext_in _ (fun _ => 0)).
      - clear. induction (seq 0 (ncol (W M))) as [|a l IH]; simpl in *; lra.
      - intros i Hi. apply in_seq in Hi.
        rewrite get_t, Hzero by lia. lra. }
    rewrite Hin, act_zero. lra. }
  unfold rsum. rewrite (map_ext_in _ (fun _ => 0)).
  - clear. induction (seq 0 (nrow (W M))) as [|a l IH]; simpl in *; lra.
  - intros k Hk. apply in_seq in Hk. apply Hall. lia.
Qed.

(** C1: for W of shape [hidden_dim, input_dim] and x of shape
    [batch_size, input_dim], forward returns a [batch_size, input_dim]
    tensor whose entries are those of (W^T (2 sigmoid(2 (W x^T)) - 1))^T:
    the decoder weight is the transpose of the encoder weight and there is
    no bias term. *)
Theorem forward_weight_tied (M : OneSymAutoencoder) (x : tensor)
    (hidden_dim input_dim batch_size : nat) :
  has_shape (W M) hidden_dim input_dim ->
  has_shape x batch_size input_dim ->
  exists out,
    forward M x = Some out /\
    has_shape out batch_size input_dim /\
    forall b j, (b < batch_size)%nat -> (j < input_dim)%nat ->
      get out b j = tied_entry (W M) x b j.
Proof.
  intros HW Hx.
  destruct (forward_defined M x _ _ _ HW Hx)
    as (z & o & Ez & Eo & Hf & (Hz & Hzr & Hzc) & (Ho & Hor & Hoc)).
  destruct HW as (HW & Hh & Hn). destruct Hx as (Hx & Hbs & Hxn).
  exists (t o). split; [exact Hf|]. split.
  - split; [now apply wf_t|]. simpl. split; lia.
  - intros b j Hb Hj.
    rewrite get_t by lia.
    rewrite (get_decoded (W M) z o b j) by (try assumption; lia).
    unfold tied_entry. apply rsum_ext. intros k Hk.
    rewrite (get_matmul _ _ _ k b HW (wf_t _ Hx) Ez) by (simpl; lia).
    unfold act.
    rewrite (rsum_ext (fun i => get (W M) k i * get (t x) i b)
                      (fun i => get (W M) k i * get x b i)); [reflexivity|].
    intros i Hi. now rewrite get_t by lia.
Qed.

(** A 2x2 weight and a batch of two non-zero samples. *)
Lemma forward_weight_tied_witness :
  let M := mkModel (mkT 2 2 [[1; 2]; [3; -1]]) in
  let x := mkT 2 2 [[3; 4]; [1; -2]] in
  has_shape (W M) 2 2 /\ has_shape x 2 2 /\
  exists out,
    forward M x = Some out /\
    has_shape out 2 2 /\
    forall b j, (b < 2)%nat -> (j < 2)%nat ->
      get out b j = tied_entry (W M) x b j.
Proof.
  intros M x.
  assert (HW : has_shape (W M) 2 2)
    by (repeat split; simpl; repeat constructor).
  assert (Hx : has_shape x 2 2)
    by (repeat split; simpl; repeat constructor).
  split; [exact HW|]. split; [exact Hx|].
  exact (forward_weight_tied M x 2 2 2 HW Hx).
Defined.

(** *** Further facts about the layer *)

(** [-x] *)
Definition neg (x : tensor) : tensor := tmap Ropp x.

Lemma forward_entry (M : OneSymAutoencoder) (x out : tensor)
    (hidden_dim input_dim batch_size : nat) (b j : nat) :
  has_shape (W M) hidden_dim input_dim ->
  has_shape x batch_size input_dim ->
  forward M x = Some out ->
  (b < batch_size)%nat -> (j < input_dim)%nat ->
  get out b j = tied_entry (W M) x b j.
Proof.
  intros HW Hx Hout Hb Hj.
  destruct (forward_defined M x _ _ _ HW Hx)
    as (z & o & Ez & Eo & Hf & (Hz & Hzr & Hzc) & (Ho & Hor & Hoc)).
  destruct HW as (HW & Hh & Hn). destruct Hx as (Hx & Hbs & Hxn).
  assert (out = t o) by congruence. subst out.
  rewrite get_t by lia.
  rewrite (get_decoded (W M) z o b j) by (try assumption; lia).
  unfold tied_entry. apply rsum_ext. intros k Hk.
  rewrite (get_matmul _ _ _ k b HW (wf_t _ Hx) Ez) by (simpl; lia).
  unfold act.
  rewrite (rsum_ext (fun i => get (W M) k i * get (t x) i b)
                    (fun i => get (W M) k i * get x b i)); [reflexivity|].
  intros i Hi. now rewrite get_t by lia.
Qed.

(** [forward] raises exactly when the batch does not have as many columns
    as the weight; the number of rows of either is free. *)
Theorem forward_raises_iff (M : OneSymAutoencoder) (x : tensor) :
  forward M x = None <-> ncol (W M) <> ncol x.
Proof.
  unfold forward, matmul. simpl.
  destruct (Nat.eqb_spec (ncol (W M)) (ncol x)) as [E | E].
  - rewrite Nat.eqb_refl. split; [discriminate | congruence].
  - split; [intros _; exact E | reflexivity].
Qed.

(** Over the reals (float32 rounding left out), the layer is odd:
    negating the batch negates every output entry. *)
Theorem forward_odd (M : OneSymAutoencoder) (x out out' : tensor)
    (hidden_dim input_dim batch_size : nat) :
  has_shape (W M) hidden_dim input_dim ->
  has_shape x batch_size input_dim ->
  forward M x = Some out ->
  forward M (neg x) = Some out' ->
  forall b j, (b < batch_size)%nat -> (j < input_dim)%nat ->
    get out' b j = - get out b j.
Proof.
  intros HW Hx Hout Hout' b j Hb Hj.
  assert (Hnx : has_shape (neg x) batch_size input_dim).
  { destruct Hx as (Hx & Hbs & Hxn). split; [now apply wf_tmap | now split]. }
  rewrite (forward_entry M (neg x) out' _ _ _ b j HW Hnx Hout' Hb Hj).
  rewrite (forward_entry M x out _ _ _ b j HW Hx Hout Hb Hj).
  unfold tied_entry. rewrite <- rsum_opp.
  destruct HW as (HW & Hh & Hn). destruct Hx as (Hx & Hbs & Hxn).
  apply rsum_ext. intros k Hk.
  assert (Hin : rsum (fun i => get (W M) k i * get (neg x) b i) (ncol (W M))
                = - rsum (fun i => get (W M) k i * get x b i) (ncol (W M))).
  { rewrite <- rsum_opp. apply rsum_ext. intros i Hi.
    unfold neg. rewrite get_tmap by (try assumption; lia). lra. }
  rewrite Hin.
  pose proof (act_neg (rsum (fun i => get (W M) k i * get x b i) (ncol (W M))))
    as Hodd.
  unfold act in Hodd.
  rewrite Hodd. lra.
Qed.


(** A 1x2 weight, one sample and a 1x2 uniform sample. *)
Definition M12 : OneSymAutoencoder := mkModel (mkT 1 2 [[1; 2]]).
Definition x12 : tensor := mkT 1 2 [[3; 4]].
Lemma M12_shape : has_shape (W M12) 1 2.
Proof. repeat split; simpl; repeat constructor. Defined.

Lemma x12_shape : has_shape x12 1 2.
Proof. repeat split; simpl; repeat constructor. Defined.

Lemma neg_x12_shape : has_shape (neg x12) 1 2.
Proof. repeat split; simpl; repeat constructor. Defined.

Lemma forward_odd_witness :
  exists out out',
    has_shape (W M12) 1 2 /\ has_shape x12 1 2 /\
    forward M12 x12 = Some out /\ forward M12 (neg x12) = Some out' /\
    forall b j, (b < 1)%nat -> (j < 2)%nat -> get out' b j = - get out b j.
Proof.
  destruct (forward_defined M12 x12 1 2 1 M12_shape x12_shape)
    as (z & o & _ & _ & Hf & _).
  destruct (forward_defined M12 (neg x12) 1 2 1 M12_shape neg_x12_shape)
    as (z' & o' & _ & _ & Hf' & _).
  exists (t o), (t o').
  split; [exact M12_shape|]. split; [exact x12_shape|].
  split; [exact Hf|]. split; [exact Hf'|].
  exact (forward_odd M12 x12 (t o) (t o') 1 2 1 M12_shape x12_shape Hf Hf').
Defined.


(** Samples do not interact: an output row depends only on the matching
    input row, whatever else is in the batch and whatever its size. *)
Theorem forward_rowwise (M : OneSymAutoencoder) (x x' out out' : tensor)
    (hidden_dim input_dim batch_size batch_size' : nat) (b b' : nat) :
  has_shape (W M) hidden_dim input_dim ->
  has_shape x batch_size input_dim ->
  has_shape x' batch_size' input_dim ->
  forward M x = Some out ->
  forward M x' = Some out' ->
  (b < batch_size)%nat -> (b' < batch_size')%nat ->
  (forall i, (i < input_dim)%nat -> get x b i = get x' b' i) ->
  forall j, (j < input_dim)%nat -> get out b j = get out' b' j.
Proof.
  intros HW Hx Hx' Hout Hout' Hb Hb' Hrow j Hj.
  rewrite (forward_entry M x out _ _ _ b j HW Hx Hout Hb Hj).
  rewrite (forward_entry M x' out' _ _ _ b' j HW Hx' Hout' Hb' Hj).
  unfold tied_entry. apply rsum_ext. intros k Hk.
  destruct HW as (_ & _ & Hn).
  rewrite (rsum_ext (fun i => get (W M) k i * get x b i)
                    (fun i => get (W M) k i * get x' b' i)); [reflexivity|].
  intros i Hi. rewrite Hrow by lia. reflexivity.
Qed.

(** Two samples, the second of which is the single sample of [x12]. *)
Definition x22 : tensor := mkT 2 2 [[5; 6]; [3; 4]].

Lemma x22_shape : has_shape x22 2 2.
Proof. repeat split; simpl; repeat constructor. Defined.

Lemma forward_rowwise_witness :
  exists out out',
    has_shape (W M12) 1 2 /\ has_shape x12 1 2 /\ has_shape x22 2 2 /\
    forward M12 x12 = Some out /\ forward M12 x22 = Some out' /\
    (0 < 1)%nat /\ (1 < 2)%nat /\
    (forall i, (i < 2)%nat -> get x12 0 i = get x22 1 i) /\
    forall j, (j < 2)%nat -> get out 0 j = get out' 1 j.
Proof.
  destruct (forward_defined M12 x12 1 2 1 M12_shape x12_shape)
    as (z & o & _ & _ & Hf & _).
  destruct (forward_defined M12 x22 1 2 2 M12_shape x22_shape)
    as (z' & o' & _ & _ & Hf' & _).
  assert (H0 : (0 < 1)%nat) by lia.
  assert (H1 : (1 < 2)%nat) by lia.
  assert (Hrow : forall i, (i < 2)%nat -> get x12 0 i = get x22 1 i).
  { intros i Hi. destruct i as [|[|i]]; [reflexivity | reflexivity | lia]. }
  exists (t o), (t o').
  split; [exact M12_shape|]. split; [exact x12_shape|]. split; [exact x22_shape|].
  split; [exact Hf|]. split; [exact Hf'|]. split; [exact H0|].
  split; [exact H1|]. split; [exact Hrow|].
  exact (forward_rowwise M12 x12 x22 (t o) (t o') 1 2 1 2 0 1
           M12_shape x12_shape x22_shape Hf Hf' H0 H1 Hrow).
Defined.

End OneSym.

(* ------------------------------------------------------------------ *)
(** ** Comparisons and reductions on Python floats, read as reals *)

Module PyFloat.

(** [x < y] as a truth value. *)
Definition ltb (x y : R) : bool := if Rlt_dec x y then true else false.

Lemma ltb_true (x y : R) : ltb x y = true <-> x < y.
Proof. unfold ltb. destruct (Rlt_dec x y); split; intros; try easy. Qed.

Lemma ltb_false (x y : R) : ltb x y = false <-> y <= x.
Proof.
  unfold ltb. destruct (Rlt_dec x y); split; intros; try easy; lra.
Qed.

(** Running reductions, as [min]/[max] scan a non-empty sequence. *)
Fixpoint min_from (a : R) (l : list R) : R :=
  match l with
  | [] => a
  | b :: l' => min_from (Rmin a b) l'
  end.

Fixpoint max_from (a : R) (l : list R) : R :=
  match l with
  | [] => a
  | b :: l' => max_from (Rmax a b) l'
  end.

(** [min(l)] and [max(l)]; Python and NumPy raise on an empty sequence,
    which callers rule out before reducing. *)
Definition lmin (l : list R) : R :=
  match l with [] => 0 | a :: l' => min_from a l' end.
Definition lmax (l : list R) : R :=
  match l with [] => 0 | a :: l' => max_from a l' end.

Lemma min_from_le_acc (l : list R) (a : R) : min_from a l <= a.
Proof.
  revert a. induction l as [|b l IH]; intros a; simpl; [lra|].
  specialize (IH (Rmin a b)). pose proof (Rmin_l a b). lra.
Qed.

Lemma min_from_lower (l : list R) (a x : R) : In x l -> min_from a l <= x.
Proof.
  revert a. induction l as [|b l IH]; intros a Hin; simpl; [easy|].
  destruct Hin as [<- | Hin].
  - pose proof (min_from_le_acc l (Rmin a b)). pose proof (Rmin_r a b). lra.
  - now apply IH.
Qed.

Lemma min_from_in (l : list R) (a : R) : min_from a l = a \/ In (min_from a l) l.
Proof.
  revert a. induction l as [|b l IH]; intros a; simpl; [now left|].
  destruct (IH (Rmin a b)) as [H | H]; [|now right; right].
  rewrite H. unfold Rmin. destruct (Rle_dec a b); [now left | now right; left].
Qed.

(** [lmin] of a non-empty list is one of its elements and below all. *)
Lemma lmin_is_minimum (l : list R) :
  l <> [] -> In (lmin l) l /\ forall x, In x l -> lmin l <= x.
Proof.
  destruct l as [|a l]; [congruence|]. intros _. unfold lmin. split.
  - destruct (min_from_in l a) as [H | H]; [left; now rewrite H | now right].
  - intros x [<- | Hx]; [apply min_from_le_acc | now apply min_from_lower].
Qed.

Lemma max_from_ge_acc (l : list R) (a : R) : a <= max_from a l.
Proof.
  revert a. induction l as [|b l IH]; intros a; simpl; [lra|].
  specialize (IH (Rmax a b)). pose proof (Rmax_l a b). lra.
Qed.

Lemma min_from_le_max_from (l : list R) (a : R) : min_from a l <= max_from a l.
Proof.
  pose proof (min_from_le_acc l a). pose proof (max_from_ge_acc l a). lra.
Qed.

(** An increasing affine map commutes with the reductions. *)
Lemma min_from_affine (m c : R) (l : list R) (a : R) :
  0 < c ->
  min_from ((a - m) * c) (map (fun d => (d - m) * c) l) = (min_from a l - m) * c.
Proof.
  intros Hc. revert a. induction l as [|b l IH]; intros a; simpl; [reflexivity|].
  rewrite <- IH. f_equal.
  unfold Rmin. destruct (Rle_dec a b), (Rle_dec ((a - m) * c) ((b - m) * c));
    try reflexivity; nra.
Qed.

Lemma max_from_affine (m c : R) (l : list R) (a : R) :
  0 < c ->
  max_from ((a - m) * c) (map (fun d => (d - m) * c) l) = (max_from a l - m) * c.
Proof.
  intros Hc. revert a. induction l as [|b l IH]; intros a; simpl; [reflexivity|].
  rewrite <- IH. f_equal.
  unfold Rmax. destruct (Rle_dec a b), (Rle_dec ((a - m) * c) ((b - m) * c));
    try reflexivity; nra.
Qed.

End PyFloat.

(* ------------------------------------------------------------------ *)
(** ** Prescaling the data to zero mean and range two *)

Module Prescale.
Import Tensor PyFloat.

(** [np.finfo(float).eps] *)
Definition eps : R := / 2 ^ 52.

(** [D.min(axis=0)], [D.max(axis=0)], [D.mean(axis=0)] for N >= 1. *)
Definition min_axis0 (D : tensor) : list R :=
  map (fun j => lmin (col j D)) (seq 0 (ncol D)).
Definition max_axis0 (D : tensor) : list R :=
  map (fun j => lmax (col j D)) (seq 0 (ncol D)).
Definition mean_axis0 (D : tensor) : list R :=
  map (fun j => lsum (col j D) / INR (nrow D)) (seq 0 (ncol D)).

(** Broadcasting a vector of length n0 over the rows of an [N, n0] array. *)
Definition bcast (f : R -> R -> R) (D : tensor) (v : list R) : tensor :=
  mkT (nrow D) (ncol D) (map (fun r => zip_with f r v) (rows D)).

(** [maxD - minD] *)
Definition range_axis0 (Data : tensor) : list R :=
  zip_with Rminus (max_axis0 Data) (min_axis0 Data).

(** [np.any(np.abs(maxD - minD) < np.sqrt(np.finfo(float).eps))] *)
Definition constant_variables (Data : tensor) : bool :=
  existsb (fun d => ltb (Rabs d) (sqrt eps)) (range_axis0 Data).

(** [cofs = 2.0 / (maxD - minD)] *)
Definition cofs (Data : tensor) : list R :=
  map (fun d => 2 / d) (range_axis0 Data).

(** [X = (Data - m) * cofs] *)
Definition scaled (Data : tensor) : tensor :=
  bcast Rmult (bcast Rminus Data (mean_axis0 Data)) (cofs Data).

(** How section 3 of the script ends. *)
Inductive outcome : Type :=
| ValueError              (* a reduction over zero samples raises *)
| SysExit                 (* "Constant variable(s) in data ... Terminating." *)
| Proceeds (X : tensor).

Definition prescale (Data : tensor) : outcome :=
  match nrow Data with
  | O => ValueError
  | S _ => if constant_variables Data then SysExit else Proceeds (scaled Data)
  end.

(** *** Facts *)

Lemma sqrt_eps : sqrt eps = / 2 ^ 26.
Proof.
  unfold eps. replace (/ 2 ^ 52) with ((/ 2 ^ 26) * (/ 2 ^ 26)) by (field; lra).
  apply sqrt_square. left. apply Rinv_0_lt_compat. lra.
Qed.

Lemma sqrt_eps_pos : 0 < sqrt eps.
Proof. rewrite sqrt_eps. apply Rinv_0_lt_compat. lra. Qed.

Lemma nth_map_seq (g : nat -> R) (n j : nat) :
  (j < n)%nat -> nth j (map g (seq 0 n)) 0 = g j.
Proof.
  intros Hj. rewrite (nth_indep _ 0 (g 0%nat)) by (rewrite length_map, length_seq; lia).
  rewrite map_nth, seq_nth by lia. reflexivity.
Qed.

Lemma nth_range (Data : tensor) (j : nat) :
  (j < ncol Data)%nat ->
  nth j (range_axis0 Data) 0 = lmax (col j Data) - lmin (col j Data).
Proof.
  intros Hj. unfold range_axis0, max_axis0, min_axis0.
  rewrite nth_zip_with by (rewrite length_map, length_seq; lia).
  now rewrite !nth_map_seq by lia.
Qed.

Lemma length_range (Data : tensor) :
  length (range_axis0 Data) = ncol Data.
Proof.
  unfold range_axis0. rewrite length_zip_with. unfold max_axis0, min_axis0.
  rewrite !length_map, !length_seq. lia.
Qed.

Lemma nth_cofs (Data : tensor) (j : nat) :
  (j < ncol Data)%nat ->
  nth j (cofs Data) 0 = 2 / (lmax (col j Data) - lmin (col j Data)).
Proof.
  intros Hj. unfold cofs.
  rewrite (nth_indep _ 0 (2 / 0)) by (rewrite length_map, length_range; lia).
  rewrite (map_nth (fun d => 2 / d)). now rewrite nth_range.
Qed.

(** The guard fires exactly when some column is nearly constant. *)
Lemma constant_variables_spec (Data : tensor) :
  constant_variables Data = true <->
  exists j, (j < ncol Data)%nat /\
            Rabs (lmax (col j Data) - lmin (col j Data)) < sqrt eps.
Proof.
  unfold constant_variables. rewrite existsb_exists. split.
  - intros (d & Hin & Hd). apply (In_nth _ _ 0) in Hin as (j & Hj & <-).
    rewrite length_range in Hj. exists j. split; [exact Hj|].
    rewrite <- nth_range by exact Hj. now apply ltb_true.
  - intros (j & Hj & Hlt).
    exists (nth j (range_axis0 Data) 0). split.
    + apply nth_In. now rewrite length_range.
    + apply ltb_true. now rewrite nth_range.
Qed.

Lemma col_scaled (Data : tensor) (j : nat) :
  wf Data -> (j < ncol Data)%nat ->
  col j (scaled Data)
  = map (fun d => (d - nth j (mean_axis0 Data) 0) * nth j (cofs Data) 0)
        (col j Data).
Proof.
  intros [_ Hall] Hj. unfold col, scaled, bcast; simpl.
  rewrite !map_map. apply map_ext_in. intros r Hr.
  rewrite Forall_forall in Hall. specialize (Hall r Hr).
  assert (Hm : length (mean_axis0 Data) = ncol Data)
    by (unfold mean_axis0; now rewrite length_map, length_seq).
  assert (Hc : length (cofs Data) = ncol Data)
    by (unfold cofs; now rewrite length_map, length_range).
  rewrite nth_zip_with by (rewrite ?length_zip_with; lia).
  rewrite nth_zip_with by lia. reflexivity.
Qed.

Lemma lsum_affine (m c : R) (l : list R) :
  lsum (map (fun d => (d - m) * c) l) = (lsum l - INR (length l) * m) * c.
Proof.
  induction l as [|a l IH].
  - simpl. lra.
  - change (lsum (map (fun d => (d - m) * c) (a :: l)))
      with ((a - m) * c + lsum (map (fun d => (d - m) * c) l)).
    change (lsum (a :: l)) with (a + lsum l).
    change (length (a :: l)) with (S (length l)).
    rewrite IH, S_INR. lra.
Qed.

(** C9: when the guard does not fire, every column of
    X = (Data - m) * cofs has mean 0 and range max - min = 2. *)
Theorem scaled_zero_mean_range_two (Data : tensor) :
  wf Data -> (0 < nrow Data)%nat -> constant_variables Data = false ->
  prescale Data = Proceeds (scaled Data) /\
  forall j, (j < ncol Data)%nat ->
    lsum (col j (scaled Data)) / INR (nrow (scaled Data)) = 0 /\
    lmax (col j (scaled Data)) - lmin (col j (scaled Data)) = 2.
Proof.
  intros HD HN Hguard. split.
  { unfold prescale. destruct (nrow Data); [lia|]. now rewrite Hguard. }
  intros j Hj.
  assert (Hrange : sqrt eps <= Rabs (lmax (col j Data) - lmin (col j Data))).
  { apply Rnot_lt_le. intros Hlt.
    assert (constant_variables Data = true)
      by (apply constant_variables_spec; now exists j).
    congruence. }
  pose proof sqrt_eps_pos as Hpos.
  rewrite (col_scaled Data j HD Hj).
  unfold mean_axis0 at 1 2 3. rewrite !nth_map_seq, !nth_cofs by exact Hj.
  assert (Hlen : length (col j Data) = nrow Data)
    by (rewrite col_length; now destruct HD).
  destruct (col j Data) as [|a l] eqn:Ecol; [simpl in Hlen; lia|].
  assert (Hle : lmin (a :: l) <= lmax (a :: l)) by apply min_from_le_max_from.
  assert (Hgt : 0 < lmax (a :: l) - lmin (a :: l)).
  { rewrite Rabs_right in Hrange; lra. }
  assert (HN' : INR (nrow Data) <> 0) by (apply not_0_INR; lia).
  split.
  - rewrite lsum_affine, Hlen. simpl nrow. field. split; lra.
  - assert (Hc : 0 < 2 / (lmax (a :: l) - lmin (a :: l)))
      by (apply Rdiv_lt_0_compat; lra).
    set (m := lsum (a :: l) / INR (nrow Data)) in *.
    set (c := 2 / (lmax (a :: l) - lmin (a :: l))) in *.
    assert (Hmax : lmax (map (fun d => (d - m) * c) (a :: l)) = (lmax (a :: l) - m) * c)
      by (apply max_from_affine, Hc).
    assert (Hmin : lmin (map (fun d => (d - m) * c) (a :: l)) = (lmin (a :: l) - m) * c)
      by (apply min_from_affine, Hc).
    rewrite Hmax, Hmin. unfold c. field. lra.
Qed.

(** Two samples of one feature, 0 and 1. *)
Lemma scaled_zero_mean_range_two_witness :
  let Data := mkT 2 1 [[0]; [1]] in
  wf Data /\ (0 < nrow Data)%nat /\ constant_variables Data = false /\
  prescale Data = Proceeds (scaled Data) /\
  forall j, (j < ncol Data)%nat ->
    lsum (col j (scaled Data)) / INR (nrow (scaled Data)) = 0 /\
    lmax (col j (scaled Data)) - lmin (col j (scaled Data)) = 2.
Proof.
  intros Data.
  assert (HD : wf Data) by (split; simpl; repeat constructor).
  assert (HN : (0 < nrow Data)%nat) by (simpl; lia).
  assert (Hg : constant_variables Data = false).
  { unfold constant_variables, range_axis0; simpl.
    rewrite orb_false_r. apply ltb_false.
    rewrite sqrt_eps. unfold Rmax, Rmin.
    destruct (Rle_dec 0 1); [|lra].
    rewrite Rabs_right by lra.
    assert (/ 2 ^ 26 < / 1) by (apply Rinv_lt_contravar; lra).
    lra. }
  split; [exact HD|]. split; [exact HN|]. split; [exact Hg|].
  exact (scaled_zero_mean_range_two Data HD HN Hg).
Defined.


(** *** Further facts about the scaled data *)

Lemma max_from_upper (l : list R) (a x : R) : In x l -> x <= max_from a l.
Proof.
  revert a. induction l as [|b l IH]; intros a Hin; simpl; [easy|].
  destruct Hin as [<- | Hin].
  - pose proof (max_from_ge_acc l (Rmax a b)). pose proof (Rmax_r a b). lra.
  - now apply IH.
Qed.

Lemma between_lmin_lmax (l : list R) (x : R) :
  In x l -> lmin l <= x <= lmax l.
Proof.
  destruct l as [|a l]; [easy|]. unfold lmin, lmax. intros [<- | Hx].
  - split; [apply min_from_le_acc | apply max_from_ge_acc].
  - split; [now apply min_from_lower | now apply max_from_upper].
Qed.

Lemma lsum_between (l : list R) (lo hi : R) :
  (forall x, In x l -> lo <= x <= hi) ->
  INR (length l) * lo <= lsum l <= INR (length l) * hi.
Proof.
  induction l as [|a l IH]; intros H.
  - simpl. lra.
  - change (lsum (a :: l)) with (a + lsum l).
    change (length (a :: l)) with (S (length l)). rewrite S_INR.
    pose proof (H a (or_introl eq_refl)).
    assert (INR (length l) * lo <= lsum l <= INR (length l) * hi)
      by (apply IH; intros x Hx; apply H; now right).
    lra.
Qed.

Lemma col_nonempty (Data : tensor) (j : nat) :
  wf Data -> (0 < nrow Data)%nat -> col j Data <> [].
Proof.
  intros [Hlen _] HN E.
  pose proof (col_length Data j) as Hl. rewrite E in Hl. simpl in Hl. lia.
Qed.

Lemma range_pos (Data : tensor) (j : nat) :
  wf Data -> (0 < nrow Data)%nat -> constant_variables Data = false ->
  (j < ncol Data)%nat ->
  sqrt eps <= lmax (col j Data) - lmin (col j Data).
Proof.
  intros HD HN Hg Hj.
  assert (Hrange : sqrt eps <= Rabs (lmax (col j Data) - lmin (col j Data))).
  { apply Rnot_lt_le. intros Hlt.
    assert (constant_variables Data = true)
      by (apply constant_variables_spec; now exists j).
    congruence. }
  pose proof (col_nonempty Data j HD HN) as Hne.
  destruct (col j Data) as [|a l]; [congruence|].
  pose proof (min_from_le_max_from l a). unfold lmin, lmax in *.
  rewrite Rabs_right in Hrange; lra.
Qed.

Lemma get_scaled (Data : tensor) (i j : nat) :
  wf Data -> (i < nrow Data)%nat -> (j < ncol Data)%nat ->
  get (scaled Data) i j
  = (get Data i j - nth j (mean_axis0 Data) 0) * nth j (cofs Data) 0.
Proof.
  intros HD Hi Hj.
  rewrite <- (nth_col (scaled Data)), col_scaled by assumption.
  set (g := fun d => (d - nth j (mean_axis0 Data) 0) * nth j (cofs Data) 0).
  rewrite (nth_indep _ 0 (g 0))
    by (rewrite length_map, col_length; destruct HD; lia).
  rewrite (map_nth g), nth_col. reflexivity.
Qed.

Lemma wf_scaled (Data : tensor) : wf Data -> wf (scaled Data).
Proof.
  intros [Hlen Hall]. split; simpl.
  - now rewrite !length_map.
  - apply Forall_forall. intros r Hr.
    rewrite map_map in Hr. apply in_map_iff in Hr as [r0 [<- Hr0]].
    rewrite Forall_forall in Hall.
    rewrite !length_zip_with, (Hall r0 Hr0).
    unfold mean_axis0, cofs. rewrite !length_map, length_seq, length_range. lia.
Qed.

Lemma col_scaled_stats (Data : tensor) (j : nat) :
  wf Data -> (0 < nrow Data)%nat -> constant_variables Data = false ->
  (j < ncol Data)%nat ->
  lsum (col j (scaled Data)) = 0 /\
  lmax (col j (scaled Data)) - lmin (col j (scaled Data)) = 2.
Proof.
  intros HD HN Hg Hj.
  pose proof (range_pos Data j HD HN Hg Hj) as Hrange.
  pose proof sqrt_eps_pos as Hpos.
  rewrite (col_scaled Data j HD Hj).
  unfold mean_axis0 at 1 2 3. rewrite !nth_map_seq, !nth_cofs by exact Hj.
  assert (Hlen : length (col j Data) = nrow Data)
    by (rewrite col_length; now destruct HD).
  destruct (col j Data) as [|a l] eqn:Ecol; [simpl in Hlen; lia|].
  assert (HN' : INR (nrow Data) <> 0) by (apply not_0_INR; lia).
  set (m := lsum (a :: l) / INR (nrow Data)) in *.
  set (c := 2 / (lmax (a :: l) - lmin (a :: l))) in *.
  assert (Hc : 0 < c) by (apply Rdiv_lt_0_compat; lra).
  split.
  - rewrite lsum_affine, Hlen. unfold m. field. exact HN'.
  - assert (Hmax : lmax (map (fun d => (d - m) * c) (a :: l))
                   = (lmax (a :: l) - m) * c)
      by (apply max_from_affine, Hc).
    assert (Hmin : lmin (map (fun d => (d - m) * c) (a :: l))
                   = (lmin (a :: l) - m) * c)
      by (apply min_from_affine, Hc).
    rewrite Hmax, Hmin. unfold c. field. lra.
Qed.

(** The scaled data keeps the shape of the data and all its entries lie in
    [-2, 2]. *)
Theorem scaled_entries_bounded (Data : tensor) :
  wf Data -> (0 < nrow Data)%nat -> constant_variables Data = false ->
  has_shape (scaled Data) (nrow Data) (ncol Data) /\
  forall i j, (i < nrow Data)%nat -> (j < ncol Data)%nat ->
              -2 <= get (scaled Data) i j <= 2.
Proof.
  intros HD HN Hg. split.
  { split; [now apply wf_scaled | split; reflexivity]. }
  intros i j Hi Hj.
  rewrite get_scaled by assumption.
  unfold mean_axis0. rewrite nth_map_seq, nth_cofs by exact Hj.
  pose proof (range_pos Data j HD HN Hg Hj) as Hrange.
  pose proof sqrt_eps_pos as Hpos.
  assert (Hlen : length (col j Data) = nrow Data)
    by (rewrite col_length; now destruct HD).
  assert (Hin : In (get Data i j) (col j Data)).
  { rewrite <- nth_col. apply nth_In. lia. }
  pose proof (between_lmin_lmax _ _ Hin) as Hd.
  pose proof (lsum_between (col j Data) _ _ (between_lmin_lmax (col j Data)))
    as Hs.
  rewrite Hlen in Hs.
  assert (HNpos : 0 < INR (nrow Data)) by (apply lt_0_INR; lia).
  set (mx := lmax (col j Data)) in *. set (mn := lmin (col j Data)) in *.
  set (S := lsum (col j Data)) in *. set (n := INR (nrow Data)) in *.
  assert (Hm : mn <= S / n <= mx).
  { split.
    - apply (Rmult_le_reg_r n); [exact HNpos|].
      unfold Rdiv. rewrite Rmult_assoc, Rinv_l by lra. lra.
    - apply (Rmult_le_reg_r n); [exact HNpos|].
      unfold Rdiv. rewrite Rmult_assoc, Rinv_l by lra. lra. }
  assert (Hd1 : - (mx - mn) <= get Data i j - S / n <= mx - mn) by lra.
  assert (Hinv : 0 < / (mx - mn)) by (apply Rinv_0_lt_compat; lra).
  assert (Hone : (mx - mn) * / (mx - mn) = 1) by (apply Rinv_r; lra).
  unfold Rdiv at 2 4. split; nra.
Qed.

(** In exact real arithmetic (no overflow, no rounding): when section 3
    proceeds, every scaling coefficient is positive and at most
    2 / sqrt(eps) = 2^27. *)
Theorem cofs_bounded (Data : tensor) :
  wf Data -> (0 < nrow Data)%nat -> constant_variables Data = false ->
  forall j, (j < ncol Data)%nat ->
            0 < nth j (cofs Data) 0 <= 2 ^ 27.
Proof.
  intros HD HN Hg j Hj. rewrite nth_cofs by exact Hj.
  pose proof (range_pos Data j HD HN Hg Hj) as Hrange.
  rewrite sqrt_eps in Hrange.
  set (d := lmax (col j Data) - lmin (col j Data)) in *.
  assert (H26 : 0 < / 2 ^ 26) by (apply Rinv_0_lt_compat; lra).
  assert (Hd : 0 < d) by lra.
  split; [apply Rdiv_lt_0_compat; lra|].
  apply (Rmult_le_reg_r d); [exact Hd|].
  unfold Rdiv. rewrite Rmult_assoc, Rinv_l by lra.
  assert (2 ^ 26 * / 2 ^ 26 = 1) by (apply Rinv_r; lra).
  replace (2 ^ 27) with (2 * 2 ^ 26) by lra. nra.
Qed.

(** In exact real arithmetic, prescaling is idempotent: the scaled data
    passes the guard and scaling it again changes no entry. *)
Theorem scaled_idempotent (Data : tensor) :
  wf Data -> (0 < nrow Data)%nat -> constant_variables Data = false ->
  prescale (scaled Data) = Proceeds (scaled (scaled Data)) /\
  forall i j, (i < nrow Data)%nat -> (j < ncol Data)%nat ->
              get (scaled (scaled Data)) i j = get (scaled Data) i j.
Proof.
  intros HD HN Hg.
  pose proof (wf_scaled Data HD) as HX.
  assert (Hstats : forall j, (j < ncol Data)%nat ->
            lsum (col j (scaled Data)) = 0 /\
            lmax (col j (scaled Data)) - lmin (col j (scaled Data)) = 2)
    by (intros j Hj; now apply col_scaled_stats).
  assert (HgX : constant_variables (scaled Data) = false).
  { destruct (constant_variables (scaled Data)) eqn:E; [|reflexivity].
    apply constant_variables_spec in E as (j & Hj & Hlt).
    destruct (Hstats j Hj) as [_ Hr]. rewrite Hr in Hlt.
    rewrite sqrt_eps, Rabs_right in Hlt by lra.
    assert (/ 2 ^ 26 < / 1) by (apply Rinv_lt_contravar; lra). lra. }
  split.
  - unfold prescale. change (nrow (scaled Data)) with (nrow Data).
    destruct (nrow Data); [lia|]. now rewrite HgX.
  - intros i j Hi Hj.
    rewrite (get_scaled (scaled Data)) by assumption.
    unfold mean_axis0. change (ncol (scaled Data)) with (ncol Data).
    rewrite nth_map_seq by exact Hj.
    rewrite (nth_cofs (scaled Data)) by exact Hj.
    destruct (Hstats j Hj) as [Hsum Hr]. rewrite Hsum, Hr.
    unfold Rdiv. rewrite Rmult_0_l. field.
Qed.

(** Three samples of one feature: 0, 1 and 4. *)
Definition Data31 : tensor := mkT 3 1 [[0]; [1]; [4]].

Lemma Data31_wf : wf Data31.
Proof. split; simpl; repeat constructor. Defined.

Lemma Data31_rows : (0 < nrow Data31)%nat.
Proof. simpl. lia. Defined.

Lemma Data31_guard : constant_variables Data31 = false.
Proof.
  unfold constant_variables, range_axis0; simpl.
  rewrite orb_false_r. apply ltb_false.
  rewrite sqrt_eps. unfold Rmax, Rmin.
  destruct (Rle_dec 0 1); [|lra].
  destruct (Rle_dec 1 4); [|lra]. destruct (Rle_dec 0 4); [|lra].
  rewrite Rabs_right by lra.
  assert (/ 2 ^ 26 < / 1) by (apply Rinv_lt_contravar; lra).
  lra.
Qed.

Lemma scaled_entries_bounded_witness :
  wf Data31 /\ (0 < nrow Data31)%nat /\ constant_variables Data31 = false /\
  has_shape (scaled Data31) (nrow Data31) (ncol Data31) /\
  forall i j, (i < nrow Data31)%nat -> (j < ncol Data31)%nat ->
              -2 <= get (scaled Data31) i j <= 2.
Proof.
  split; [exact Data31_wf|]. split; [exact Data31_rows|].
  split; [exact Data31_guard|].
  exact (scaled_entries_bounded Data31 Data31_wf Data31_rows Data31_guard).
Defined.

Lemma cofs_bounded_witness :
  wf Data31 /\ (0 < nrow Data31)%nat /\ constant_variables Data31 = false /\
  forall j, (j < ncol Data31)%nat -> 0 < nth j (cofs Data31) 0 <= 2 ^ 27.
Proof.
  split; [exact Data31_wf|]. split; [exact Data31_rows|].
  split; [exact Data31_guard|].
  exact (cofs_bounded Data31 Data31_wf Data31_rows Data31_guard).
Defined.

Lemma scaled_idempotent_witness :
  wf Data31 /\ (0 < nrow Data31)%nat /\ constant_variables Data31 = false /\
  prescale (scaled Data31) = Proceeds (scaled (scaled Data31)) /\
  forall i j, (i < nrow Data31)%nat -> (j < ncol Data31)%nat ->
              get (scaled (scaled Data31)) i j = get (scaled Data31) i j.
Proof.
  split; [exact Data31_wf|]. split; [exact Data31_rows|].
  split; [exact Data31_guard|].
  exact (scaled_idempotent Data31 Data31_wf Data31_rows Data31_guard).
Defined.

(** The same data in other units: every entry shifted by [s] and scaled
    by [c]. *)
Definition rescaled (s c : R) (Data : tensor) : tensor :=
  tmap (fun d => (d - s) * c) Data.

Lemma col_tmap (g : R -> R) (D : tensor) (j : nat) :
  wf D -> (j < ncol D)%nat -> col j (tmap g D) = map g (col j D).
Proof.
  intros [_ Hall] Hj. unfold col. simpl. rewrite !map_map.
  apply map_ext_in. intros r Hr.
  rewrite Forall_forall in Hall. specialize (Hall r Hr).
  rewrite (nth_indep _ 0 (g 0)) by (rewrite length_map; lia).
  apply map_nth.
Qed.

(** In exact real arithmetic, prescaling removes the units: shifting all
    data by s and scaling it by c > 0 leaves every entry of X as it
    was. *)
Theorem scaled_unit_free (s c : R) (Data : tensor) :
  wf Data -> (0 < nrow Data)%nat -> 0 < c ->
  constant_variables Data = false ->
  constant_variables (rescaled s c Data) = false ->
  prescale (rescaled s c Data) = Proceeds (scaled (rescaled s c Data)) /\
  forall i j, (i < nrow Data)%nat -> (j < ncol Data)%nat ->
    get (scaled (rescaled s c Data)) i j = get (scaled Data) i j.
Proof.
  intros HD HN Hc Hg Hg'. split.
  { unfold prescale. change (nrow (rescaled s c Data)) with (nrow Data).
    destruct (nrow Data); [lia|]. now rewrite Hg'. }
  intros i j Hi Hj.
  assert (HD' : wf (rescaled s c Data)) by (now apply wf_tmap).
  rewrite (get_scaled (rescaled s c Data)) by assumption.
  rewrite (get_scaled Data) by assumption.
  unfold mean_axis0. change (ncol (rescaled s c Data)) with (ncol Data).
  change (nrow (rescaled s c Data)) with (nrow Data).
  rewrite !nth_map_seq by exact Hj.
  rewrite (nth_cofs (rescaled s c Data)), (nth_cofs Data) by exact Hj.
  unfold rescaled at 1. rewrite get_tmap by assumption.
  unfold rescaled. rewrite (col_tmap _ Data j HD Hj).
  pose proof (range_pos Data j HD HN Hg Hj) as Hrange.
  pose proof sqrt_eps_pos as Hpos.
  assert (Hlen : length (col j Data) = nrow Data)
    by (rewrite col_length; now destruct HD).
  destruct (col j Data) as [|a l] eqn:Ecol; [simpl in Hlen; lia|].
  assert (Hmax : lmax (map (fun d => (d - s) * c) (a :: l))
                 = (lmax (a :: l) - s) * c)
    by (apply max_from_affine, Hc).
  assert (Hmin : lmin (map (fun d => (d - s) * c) (a :: l))
                 = (lmin (a :: l) - s) * c)
    by (apply min_from_affine, Hc).
  rewrite Hmax, Hmin, lsum_affine, Hlen.
  assert (HN' : INR (nrow Data) <> 0) by (apply not_0_INR; lia).
  field. repeat split; try lra; nra.
Qed.

Lemma rescaled_Data31_guard : constant_variables (rescaled 1 2 Data31) = false.
Proof.
  unfold constant_variables, range_axis0; simpl.
  rewrite orb_false_r. apply ltb_false.
  rewrite sqrt_eps.
  assert (/ 2 ^ 26 < / 1) by (apply Rinv_lt_contravar; lra).
  unfold Rmax, Rmin. repeat destruct (Rle_dec _ _); try lra;
    rewrite Rabs_right; lra.
Qed.

Lemma scaled_unit_free_witness :
  wf Data31 /\ (0 < nrow Data31)%nat /\ 0 < 2 /\
  constant_variables Data31 = false /\
  constant_variables (rescaled 1 2 Data31) = false /\
  prescale (rescaled 1 2 Data31) = Proceeds (scaled (rescaled 1 2 Data31)) /\
  forall i j, (i < nrow Data31)%nat -> (j < ncol Data31)%nat ->
    get (scaled (rescaled 1 2 Data31)) i j = get (scaled Data31) i j.
Proof.
  assert (Hc : 0 < 2) by lra.
  split; [exact Data31_wf|]. split; [exact Data31_rows|]. split; [exact Hc|].
  split; [exact Data31_guard|]. split; [exact rescaled_Data31_guard|].
  exact (scaled_unit_free 1 2 Data31 Data31_wf Data31_rows Hc Data31_guard
           rescaled_Data31_guard).
Defined.

End Prescale.

(* ------------------------------------------------------------------ *)
(** ** The training loop [train_sffn] *)

Module Train.
Import PyFloat.

(** A Python float that is either [float('inf')] or finite. *)
Inductive pyfloat : Type :=
| Inf
| Fin (r : R).

(** [cur_loss < best_loss] *)
Definition fin_lt (x : R) (b : pyfloat) : bool :=
  match b with Inf => true | Fin y => ltb x y end.

(** [best_loss < tol] *)
Definition lt_fin (b : pyfloat) (x : R) : bool :=
  match b with Inf => false | Fin y => ltb y x end.

(** Tensors are references into a store of tensor storages:
    [optimizer.step()] writes a parameter's storage in place. *)
Definition loc : Type := nat.

(** A [state_dict]: parameter names bound to tensors, i.e. to storages. *)
Definition state_dict : Type := list (string * loc).

(** An [nn.Module] whose single [nn.Parameter] is [W]. *)
Record module : Type := mkModule { W : loc }.

(** [model.state_dict()]: the entry for "W" is [W.detach()], a tensor on
    the same storage as the parameter; nothing is copied. *)
Definition get_state_dict (model : module) : state_dict :=
  [("W"%string, W model)].

Section TrainSFFN.

(** The value held by the parameter tensor. *)
Variable Params : Type.
(** The state of [optim.Adam]: moment estimates and step counts. *)
Variable Opt : Type.
Variable Batch : Type.

Definition store : Type := loc -> Params.

Definition write (h : store) (l : loc) (v : Params) : store :=
  fun l' => if Nat.eqb l' l then v else h l'.

(** [mse_loss(model(x_batch), x_batch).item()] at the current parameters. *)
Variable loss_fn : Params -> Batch -> R.
(** [zero_grad(); loss.backward(); optimizer.step()]: the new parameter
    value and optimizer state. *)
Variable adam_step : Params -> Opt -> Batch -> Params * Opt.
(** [optim.Adam(model.parameters(), lr=lr)] *)
Variable adam_init : Opt.
(** [for batch in loader]: the mini-batches of an epoch; [shuffle=True]
    draws a new order every epoch. *)
Variable loader : nat -> list Batch.

Variable model : module.
Variable max_iters : Z.
Variable tol : R.

(** The local variables of [train_sffn], and the store its updates act on. *)
Record locals : Type := mkLocals {
  heap : store;
  opt : Opt;
  best_loss : pyfloat;
  best_state : option state_dict;
  loss_values : list R;
  num_iter : Z
}.

(** The state before the first epoch. *)
Definition init (h : store) : locals :=
  mkLocals h adam_init Inf None [] 0.

(** The loop body up to and including "Track best". *)
Definition batch_body (s : locals) (batch : Batch) : locals :=
  let num_iter' := (num_iter s + 1)%Z in
  let w := heap s (W model) in
  let cur_loss := loss_fn w batch in
  let (w', opt') := adam_step w (opt s) batch in
  let heap' := write (heap s) (W model) w' in
  let loss_values' := loss_values s ++ [cur_loss] in
  if fin_lt cur_loss (best_loss s)
  then mkLocals heap' opt' (Fin cur_loss) (Some (get_state_dict model))
                loss_values' num_iter'
  else mkLocals heap' opt' (best_loss s) (best_state s) loss_values' num_iter'.

(** [best_loss < tol or num_iter >= max_iters] *)
Definition stop (s : locals) : bool :=
  lt_fin (best_loss s) tol || (max_iters <=? num_iter s)%Z.

(** [for batch in loader: ...; if stop: break] *)
Fixpoint batch_loop (batches : list Batch) (s : locals) : locals :=
  match batches with
  | [] => s
  | batch :: rest =>
      let s' := batch_body s batch in
      if stop s' then s' else batch_loop rest s'
  end.

(** [for epoch in range(...): <batch loop>; if stop: break], with [n]
    epochs left and [epoch] the current one. *)
Fixpoint epoch_loop (n epoch : nat) (s : locals) : locals :=
  match n with
  | O => s
  | S n' =>
      let s' := batch_loop (loader epoch) s in
      if stop s' then s' else epoch_loop n' (S epoch) s'
  end.

(** "Hard cap of 10k epochs" *)
Definition epoch_cap : nat := Z.to_nat 10000.

(** [train_sffn]: the returned tuple is
    [(best_state, best_loss, loss_values, num_iter)] of the result;
    [heap] is the store the caller's [model] lives in afterwards. *)
Definition train_sffn (h : store) : locals :=
  epoch_loop epoch_cap 0 (init h).

(** The values a [state_dict] holds when it is read in store [h]. *)
Definition contents (h : store) (sd : state_dict) : list (string * Params) :=
  map (fun kv => (fst kv, h (snd kv))) sd.

(** [model.load_state_dict(sd)]: [param.copy_(sd["W"])]. *)
Definition load_state_dict (sd : state_dict) (h : store) : store :=
  fold_left (fun h' kv => write h' (W model) (h' (snd kv))) sd h.

(** Number of mini-batches in [n] epochs starting at [epoch]. *)
Fixpoint total_batches (n epoch : nat) : Z :=
  match n with
  | O => 0
  | S n' => Z.of_nat (length (loader epoch)) + total_batches n' (S epoch)
  end.

(** The best loss after the recorded losses [l]: [float('inf')] before the
    first update, then the least loss seen. *)
Definition running_best (l : list R) : pyfloat :=
  match l with [] => Inf | _ :: _ => Fin (lmin l) end.

(** *** One pass through the loop body *)

Lemma num_iter_body (s : locals) (b : Batch) :
  num_iter (batch_body s b) = (num_iter s + 1)%Z.
Proof.
  unfold batch_body. destruct (adam_step _ _ _), (fin_lt _ _); reflexivity.
Qed.

Lemma loss_values_body (s : locals) (b : Batch) :
  loss_values (batch_body s b)
  = loss_values s ++ [loss_fn (heap s (W model)) b].
Proof.
  unfold batch_body. destruct (adam_step _ _ _), (fin_lt _ _); reflexivity.
Qed.

Lemma best_loss_body (s : locals) (b : Batch) :
  best_loss (batch_body s b)
  = if fin_lt (loss_fn (heap s (W model)) b) (best_loss s)
    then Fin (loss_fn (heap s (W model)) b) else best_loss s.
Proof.
  unfold batch_body. destruct (adam_step _ _ _), (fin_lt _ _); reflexivity.
Qed.

Lemma best_state_body (s : locals) (b : Batch) :
  best_state (batch_body s b)
  = if fin_lt (loss_fn (heap s (W model)) b) (best_loss s)
    then Some (get_state_dict model) else best_state s.
Proof.
  unfold batch_body. destruct (adam_step _ _ _), (fin_lt _ _); reflexivity.
Qed.

Lemma heap_body (s : locals) (b : Batch) :
  heap (batch_body s b) (W model)
  = fst (adam_step (heap s (W model)) (opt s) b).
Proof.
  unfold batch_body. destruct (adam_step _ _ _), (fin_lt _ _); simpl;
    unfold write; now rewrite Nat.eqb_refl.
Qed.

(** *** Loop invariants *)

Lemma batch_loop_inv (P : locals -> Prop) :
  (forall s b, P s -> P (batch_body s b)) ->
  forall bs s, P s -> P (batch_loop bs s).
Proof.
  intros Hstep bs. induction bs as [|b bs IH]; intros s Hs; simpl; [exact Hs|].
  destruct (stop (batch_body s b)); [|apply IH]; now apply Hstep.
Qed.

Lemma epoch_loop_inv (P : locals -> Prop) :
  (forall s b, P s -> P (batch_body s b)) ->
  forall n e s, P s -> P (epoch_loop n e s).
Proof.
  intros Hstep n. induction n as [|n IH]; intros e s Hs; simpl; [exact Hs|].
  destruct (stop (batch_loop (loader e) s)); [|apply IH];
    now apply batch_loop_inv.
Qed.

Lemma min_from_snoc (l : list R) (a c : R) :
  min_from a (l ++ [c]) = Rmin (min_from a l) c.
Proof. revert a. induction l as [|b l IH]; intros a; simpl; [reflexivity|apply IH]. Qed.

Lemma running_best_snoc (l : list R) (c : R) :
  running_best (l ++ [c])
  = if fin_lt c (running_best l) then Fin c else running_best l.
Proof.
  destruct l as [|a l]; [reflexivity|].
  change ((a :: l) ++ [c]) with (a :: (l ++ [c])).
  unfold running_best, lmin, fin_lt. rewrite min_from_snoc.
  unfold Rmin, ltb.
  destruct (Rle_dec (min_from a l) c), (Rlt_dec c (min_from a l));
    try reflexivity; lra.
Qed.

(** What every pass through the body preserves. *)
Definition tracked (s : locals) : Prop :=
  Z.of_nat (length (loss_values s)) = num_iter s /\
  best_loss s = running_best (loss_values s) /\
  best_state s = match loss_values s with
                 | [] => None
                 | _ :: _ => Some (get_state_dict model)
                 end.

Lemma tracked_init (h : store) : tracked (init h).
Proof. repeat split. Qed.

Lemma tracked_body (s : locals) (b : Batch) :
  tracked s -> tracked (batch_body s b).
Proof.
  intros (Hlen & Hbest & Hst). unfold tracked.
  rewrite num_iter_body, loss_values_body, best_loss_body, best_state_body.
  rewrite running_best_snoc, <- Hbest. repeat split.
  - rewrite length_app. simpl. lia.
  - destruct (loss_values s) as [|a l].
    + rewrite Hbest. reflexivity.
    + rewrite Hst. now destruct (fin_lt _ _).
Qed.

Lemma tracked_train (h : store) : tracked (train_sffn h).
Proof.
  unfold train_sffn.
  apply (epoch_loop_inv tracked); [exact tracked_body | apply tracked_init].
Qed.

(** *** The iteration cap *)

Definition capped (s : locals) : Prop := (num_iter s <= Z.max 1 max_iters)%Z.
Definition at_head (s : locals) : Prop :=
  (num_iter s = 0 \/ num_iter s < max_iters)%Z.

Lemma stop_false_head (s : locals) : stop s = false -> at_head s.
Proof.
  unfold stop, at_head. intros H. apply orb_false_iff in H as [_ H].
  apply Z.leb_gt in H. now right.
Qed.

Lemma capped_body (s : locals) (b : Batch) :
  at_head s -> capped (batch_body s b).
Proof. unfold at_head, capped. rewrite num_iter_body. lia. Qed.

Lemma capped_batch_loop (bs : list Batch) (s : locals) :
  at_head s -> capped s -> capped (batch_loop bs s).
Proof.
  revert s. induction bs as [|b bs IH]; intros s Hh Hc; simpl; [exact Hc|].
  pose proof (capped_body s b Hh) as Hc'.
  destruct (stop (batch_body s b)) eqn:Es; [exact Hc'|].
  apply IH; [now apply stop_false_head | exact Hc'].
Qed.

Lemma capped_epoch_loop (n e : nat) (s : locals) :
  at_head s -> capped s -> capped (epoch_loop n e s).
Proof.
  revert e s. induction n as [|n IH]; intros e s Hh Hc; simpl; [exact Hc|].
  pose proof (capped_batch_loop (loader e) s Hh Hc) as Hc'.
  destruct (stop (batch_loop (loader e) s)) eqn:Es; [exact Hc'|].
  apply IH; [now apply stop_false_head | exact Hc'].
Qed.

Lemma capped_train (h : store) : capped (train_sffn h).
Proof.
  unfold train_sffn.
  apply capped_epoch_loop; [now left | unfold capped, init; simpl num_iter; lia].
Qed.

(** *** The epoch cap *)

Lemma batch_loop_le (bs : list Batch) (s : locals) :
  (num_iter (batch_loop bs s) <= num_iter s + Z.of_nat (length bs))%Z.
Proof.
  revert s. induction bs as [|b bs IH]; intros s; simpl length; simpl batch_loop.
  - lia.
  - destruct (stop (batch_body s b)).
    + rewrite num_iter_body. lia.
    + specialize (IH (batch_body s b)). rewrite num_iter_body in IH. lia.
Qed.

Lemma epoch_loop_le (n e : nat) (s : locals) :
  (num_iter (epoch_loop n e s) <= num_iter s + total_batches n e)%Z.
Proof.
  revert e s. induction n as [|n IH]; intros e s; simpl; [lia|].
  pose proof (batch_loop_le (loader e) s) as Hb.
  assert (Hnn : (0 <= total_batches n (S e))%Z).
  { clear. generalize (S e). induction n as [|n IHn]; intros e'; simpl; [lia|].
    specialize (IHn (S e')). lia. }
  destruct (stop (batch_loop (loader e) s)); [lia|].
  specialize (IH (S e) (batch_loop (loader e) s)). lia.
Qed.

Lemma batch_loop_no_stop (bs : list Batch) (s : locals) :
  stop (batch_loop bs s) = false ->
  num_iter (batch_loop bs s) = (num_iter s + Z.of_nat (length bs))%Z.
Proof.
  revert s. induction bs as [|b bs IH]; intros s; simpl length; simpl batch_loop.
  - lia.
  - destruct (stop (batch_body s b)) eqn:Es.
    + congruence.
    + intros H. rewrite (IH _ H), num_iter_body. lia.
Qed.

(** The loop ends on its exit test, or after all [n] epochs in full. *)
Lemma epoch_loop_exit (n e : nat) (s : locals) :
  stop (epoch_loop n e s) = true \/
  num_iter (epoch_loop n e s) = (num_iter s + total_batches n e)%Z.
Proof.
  revert e s. induction n as [|n IH]; intros e s; simpl; [right; lia|].
  destruct (stop (batch_loop (loader e) s)) eqn:Es; [now left|].
  destruct (IH (S e) (batch_loop (loader e) s)) as [H | H]; [now left|].
  right. rewrite H, (batch_loop_no_stop _ _ Es). lia.
Qed.

Lemma total_batches_ge (n e : nat) :
  (forall e', loader e' <> []) -> (Z.of_nat n <= total_batches n e)%Z.
Proof.
  intros Hne. revert e. induction n as [|n IH]; intros e; [simpl; lia|].
  change (total_batches (S n) e)
    with (Z.of_nat (length (loader e)) + total_batches n (S e))%Z.
  specialize (IH (S e)). specialize (Hne e).
  destruct (loader e); [congruence | simpl length; lia].
Qed.

(** *** Unfolding the first epoch *)

Lemma epoch_cap_succ : epoch_cap = S (Nat.pred epoch_cap).
Proof. unfold epoch_cap. lia. Qed.

Lemma epoch_cap_Z : Z.of_nat epoch_cap = 10000%Z.
Proof. unfold epoch_cap. lia. Qed.

Lemma epoch_loop_succ (n e : nat) (s : locals) :
  epoch_loop (S n) e s
  = if stop (batch_loop (loader e) s) then batch_loop (loader e) s
    else epoch_loop n (S e) (batch_loop (loader e) s).
Proof. reflexivity. Qed.

Lemma train_sffn_first_epoch (h : store) :
  train_sffn h
  = if stop (batch_loop (loader 0) (init h))
    then batch_loop (loader 0) (init h)
    else epoch_loop (Nat.pred epoch_cap) 1 (batch_loop (loader 0) (init h)).
Proof. unfold train_sffn. rewrite epoch_cap_succ at 1. apply epoch_loop_succ. Qed.

Lemma stop_at_cap (s : locals) :
  (max_iters <= num_iter s)%Z -> stop s = true.
Proof.
  intros H. unfold stop. apply orb_true_iff. right. now apply Z.leb_le.
Qed.

(** With [max_iters <= 1] the first mini-batch is the only one. *)
Lemma train_sffn_single_step (h : store) (b : Batch) (bs : list Batch) :
  loader 0 = b :: bs -> (max_iters <= 1)%Z ->
  train_sffn h = batch_body (init h) b.
Proof.
  intros Hl Hm. rewrite train_sffn_first_epoch, Hl.
  assert (Hs : stop (batch_body (init h) b) = true)
    by (apply stop_at_cap; rewrite num_iter_body; simpl; lia).
  assert (Hb : batch_loop (b :: bs) (init h) = batch_body (init h) b)
    by (simpl; now rewrite Hs).
  now rewrite Hb, Hs.
Qed.

(** When no loss is ever below [tol] and [max_iters] exceeds the number of
    mini-batches in all epochs, the epoch cap ends the loop. *)
Lemma epoch_cap_exit (h : store) :
  (forall w b, tol <= loss_fn w b) ->
  (total_batches epoch_cap 0 < max_iters)%Z ->
  num_iter (train_sffn h) = total_batches epoch_cap 0 /\
  lt_fin (best_loss (train_sffn h)) tol = false.
Proof.
  intros Hloss Htot.
  assert (Hbest : lt_fin (best_loss (train_sffn h)) tol = false).
  { unfold train_sffn.
    apply (epoch_loop_inv (fun s => lt_fin (best_loss s) tol = false));
      [|reflexivity].
    intros s b Hs. rewrite best_loss_body.
    destruct (fin_lt _ _); [|exact Hs].
    simpl. apply ltb_false, Hloss. }
  split; [|exact Hbest].
  pose proof (epoch_loop_le epoch_cap 0 (init h)) as Hle.
  destruct (epoch_loop_exit epoch_cap 0 (init h)) as [Hstop | Hfull].
  - fold (train_sffn h) in Hstop, Hle. unfold stop in Hstop.
    rewrite Hbest, orb_false_l in Hstop.
    change (num_iter (init h)) with 0%Z in Hle.
    apply Z.leb_le in Hstop. lia.
  - exact Hfull.
Qed.

(** *** The claims about [train_sffn] *)

(** C2 (amended): every call returns; the number of mini-batch updates,
    which is the length of loss_values and the returned num_iter, is at
    most max(1, max_iters), hence at most max_iters whenever
    max_iters >= 1; and it is at most the number of mini-batches in the
    10000 epochs the outer loop is capped at. *)
Theorem train_iteration_bound (h : store) :
  exists r, train_sffn h = r /\
    (0 <= num_iter r <= Z.max 1 max_iters)%Z /\
    Z.of_nat (length (loss_values r)) = num_iter r /\
    (num_iter r <= total_batches (Z.to_nat 10000) 0)%Z.
Proof.
  exists (train_sffn h). split; [reflexivity|].
  destruct (tracked_train h) as (Hlen & _ & _).
  pose proof (capped_train h) as Hcap. unfold capped in Hcap.
  pose proof (epoch_loop_le epoch_cap 0 (init h)) as Hep.
  fold (train_sffn h) in Hep. change (num_iter (init h)) with 0%Z in Hep.
  fold epoch_cap. repeat split; try assumption; lia.
Qed.

(** C3 (amended): for max_iters >= 1, train_sffn returns with
    best_loss < tol, or with num_iter == max_iters, or after all 10000
    epochs ran in full with best_loss >= tol and num_iter < max_iters; the
    last case is excluded when every epoch has a mini-batch and
    max_iters <= 10000. *)
Theorem train_exit_condition (h : store) :
  (1 <= max_iters)%Z ->
  (lt_fin (best_loss (train_sffn h)) tol = true \/
   num_iter (train_sffn h) = max_iters \/
   (num_iter (train_sffn h) = total_batches (Z.to_nat 10000) 0 /\
    (num_iter (train_sffn h) < max_iters)%Z /\
    lt_fin (best_loss (train_sffn h)) tol = false)) /\
  ((forall e, loader e <> []) -> (max_iters <= 10000)%Z ->
   lt_fin (best_loss (train_sffn h)) tol = true \/
   num_iter (train_sffn h) = max_iters).
Proof.
  intros Hm.
  pose proof (capped_train h) as Hcap. unfold capped in Hcap.
  assert (Hstop : stop (train_sffn h) = true ->
                  lt_fin (best_loss (train_sffn h)) tol = true \/
                  num_iter (train_sffn h) = max_iters).
  { unfold stop. intros H. apply orb_true_iff in H as [H | H]; [now left|].
    apply Z.leb_le in H. right. lia. }
  destruct (epoch_loop_exit epoch_cap 0 (init h)) as [H | H];
    fold (train_sffn h) in H.
  - destruct (Hstop H) as [H1 | H1]; split; auto.
  - change (num_iter (init h)) with 0%Z in H. fold epoch_cap. split.
    + destruct (lt_fin (best_loss (train_sffn h)) tol) eqn:Eb; [now left|].
      right. destruct (Z.eq_dec (num_iter (train_sffn h)) max_iters) as [E | E];
        [now left | right]. repeat split; try assumption; lia.
    + intros Hne Hcapm. right.
      pose proof (total_batches_ge epoch_cap 0 Hne) as Hge.
      pose proof epoch_cap_Z. lia.
Qed.

(** With [max_iters = 2] and a first step that does not stop, the second
    mini-batch is the last. *)
Lemma train_sffn_two_steps (h : store) (b1 b2 : Batch) (bs : list Batch) :
  loader 0 = b1 :: b2 :: bs ->
  stop (batch_body (init h) b1) = false ->
  (max_iters <= 2)%Z ->
  train_sffn h = batch_body (batch_body (init h) b1) b2.
Proof.
  intros Hl H1 Hm. rewrite train_sffn_first_epoch, Hl.
  assert (H2 : stop (batch_body (batch_body (init h) b1) b2) = true)
    by (apply stop_at_cap; rewrite !num_iter_body; simpl; lia).
  assert (Hb : batch_loop (b1 :: b2 :: bs) (init h)
               = batch_body (batch_body (init h) b1) b2)
    by (simpl; now rewrite H1, H2).
  now rewrite Hb, H2.
Qed.

(** A property of the parameter value that every update keeps holds on
    return. *)
Lemma train_heap_inv (Q : Params -> Prop) (h : store) :
  (forall w o b, Q w -> Q (fst (adam_step w o b))) ->
  Q (h (W model)) -> Q (heap (train_sffn h) (W model)).
Proof.
  intros Hstep Hh. unfold train_sffn.
  apply (epoch_loop_inv (fun s => Q (heap s (W model)))); [|exact Hh].
  intros s b Hs. rewrite heap_body. now apply Hstep.
Qed.

(** On a non-empty first epoch the first loss is below [float('inf')], so
    best_state is bound. *)
Lemma best_state_bound (h : store) :
  loader 0 <> [] -> best_state (train_sffn h) = Some (get_state_dict model).
Proof.
  intros Hne. destruct (tracked_train h) as (_ & _ & Hs). rewrite Hs.
  assert (Hl : loss_values (train_sffn h) <> []).
  { assert (Hstep : forall s b, loss_values s <> [] ->
                                loss_values (batch_body s b) <> []).
    { intros s b _. rewrite loss_values_body. now destruct (loss_values s). }
    assert (H1 : loss_values (batch_loop (loader 0) (init h)) <> []).
    { destruct (loader 0) as [|b bs]; [congruence|]. simpl batch_loop.
      assert (loss_values (batch_body (init h) b) <> [])
        by (rewrite loss_values_body; discriminate).
      destruct (stop (batch_body (init h) b)); [assumption|].
      now apply (batch_loop_inv (fun s => loss_values s <> [])). }
    rewrite train_sffn_first_epoch.
    destruct (stop (batch_loop (loader 0) (init h))); [exact H1|].
    now apply (epoch_loop_inv (fun s => loss_values s <> [])). }
  now destruct (loss_values (train_sffn h)).
Qed.

(** The returned best_state, if any, is the model's own parameter tensor:
    read on return it shows the parameters after the last update, and
    loading it leaves the model as it is. *)
Lemma best_state_aliases_model (h : store) (sd : state_dict) :
  best_state (train_sffn h) = Some sd ->
  contents (heap (train_sffn h)) sd
    = [("W"%string, heap (train_sffn h) (W model))] /\
  load_state_dict sd (heap (train_sffn h)) (W model)
    = heap (train_sffn h) (W model).
Proof.
  intros Hsd. destruct (tracked_train h) as (_ & _ & Hs).
  destruct (loss_values (train_sffn h)); [congruence|].
  assert (sd = get_state_dict model) by congruence. subst sd.
  split; [reflexivity|].
  simpl. unfold write. now rewrite Nat.eqb_refl.
Qed.

(** *** Further facts about [train_sffn] *)

(** best_state is None exactly when no update was performed. *)
Theorem best_state_none_iff (h : store) :
  best_state (train_sffn h) = None <-> num_iter (train_sffn h) = 0%Z.
Proof.
  destruct (tracked_train h) as (Hlen & _ & Hs). rewrite Hs, <- Hlen.
  destruct (loss_values (train_sffn h)); simpl; split;
    try reflexivity; try discriminate; lia.
Qed.

End TrainSFFN.

Arguments heap {Params Opt}.
Arguments opt {Params Opt}.
Arguments best_loss {Params Opt}.
Arguments best_state {Params Opt}.
Arguments loss_values {Params Opt}.
Arguments num_iter {Params Opt}.
Arguments init {Params Opt}.
Arguments batch_body {Params Opt Batch}.
Arguments stop {Params Opt}.
Arguments train_sffn {Params Opt Batch}.
Arguments contents {Params}.
Arguments load_state_dict {Params}.
Arguments total_batches {Batch}.

(** *** Runs under two iteration caps *)

Section TwoCaps.

Variables Params Opt Batch : Type.
Variable loss_fn : Params -> Batch -> R.
Variable adam_step : Params -> Opt -> Batch -> Params * Opt.
Variable adam_init : Opt.
Variable loader : nat -> list Batch.
Variable model : module.
Variable tol : R.
Variables m m' : Z.
Hypothesis caps : (m <= m')%Z.

Local Abbreviation body := (batch_body loss_fn adam_step model).
Local Abbreviation batches c :=
  (batch_loop Params Opt Batch loss_fn adam_step model c tol).
Local Abbreviation epochs c :=
  (epoch_loop Params Opt Batch loss_fn adam_step loader model c tol).

(** [r] has recorded the losses of [s] and possibly more. *)
Definition extends (s r : locals Params Opt) : Prop :=
  exists more, loss_values r = loss_values s ++ more.

Lemma extends_refl (s : locals Params Opt) : extends s s.
Proof. exists []. now rewrite app_nil_r. Qed.

Lemma extends_trans (s r u : locals Params Opt) :
  extends s r -> extends r u -> extends s u.
Proof.
  intros [l1 H1] [l2 H2]. exists (l1 ++ l2). now rewrite H2, H1, app_assoc.
Qed.

Lemma extends_body (s r : locals Params Opt) (b : Batch) :
  extends s r -> extends s (body r b).
Proof.
  intros H. apply (extends_trans s r); [exact H|].
  eexists. apply loss_values_body.
Qed.

Lemma extends_batches (c : Z) (bs : list Batch) (s : locals Params Opt) :
  extends s (batches c bs s).
Proof.
  apply (batch_loop_inv _ _ _ _ _ _ _ _ (extends s));
    [intros r b; apply extends_body | apply extends_refl].
Qed.

Lemma extends_epochs (c : Z) (n e : nat) (s : locals Params Opt) :
  extends s (epochs c n e s).
Proof.
  apply (epoch_loop_inv _ _ _ _ _ _ _ _ _ (extends s));
    [intros r b; apply extends_body | apply extends_refl].
Qed.

Lemma stop_larger_cap (s : locals Params Opt) :
  stop m tol s = false -> stop m' tol s = false.
Proof.
  unfold stop. intros H. apply orb_false_iff in H as [H1 H2].
  rewrite H1. simpl. apply Z.leb_gt in H2. apply Z.leb_gt. lia.
Qed.

Lemma lockstep_batches (bs : list Batch) (s : locals Params Opt) :
  extends (batches m bs s) (batches m' bs s) /\
  (stop m tol (batches m bs s) = false -> batches m bs s = batches m' bs s).
Proof.
  revert s. induction bs as [|b bs IH]; intros s; simpl.
  - split; [apply extends_refl | reflexivity].
  - destruct (stop m tol (body s b)) eqn:Es.
    + split; [|congruence].
      destruct (stop m' tol (body s b));
        [apply extends_refl | apply extends_batches].
    + rewrite (stop_larger_cap _ Es). apply IH.
Qed.

Lemma lockstep_epochs (n e : nat) (s : locals Params Opt) :
  extends (epochs m n e s) (epochs m' n e s).
Proof.
  revert e s. induction n as [|n IH]; intros e s; simpl.
  - apply extends_refl.
  - destruct (lockstep_batches (loader e) s) as [Hext Heq].
    destruct (stop m tol (batches m (loader e) s)) eqn:Es.
    + destruct (stop m' tol (batches m' (loader e) s)); [exact Hext|].
      eapply extends_trans; [exact Hext | apply extends_epochs].
    + rewrite <- (Heq eq_refl), (stop_larger_cap _ Es). apply IH.
Qed.

(** Raising max_iters only extends a run: with the same loader, optimizer
    and tolerance, the losses recorded under the smaller cap are a prefix
    of those recorded under the larger one, and num_iter does not
    decrease. *)
Theorem larger_cap_extends_run (h : store Params) :
  (exists more,
     loss_values (train_sffn loss_fn adam_step adam_init loader model m' tol h)
     = loss_values (train_sffn loss_fn adam_step adam_init loader model m tol h)
       ++ more) /\
  (num_iter (train_sffn loss_fn adam_step adam_init loader model m tol h)
   <= num_iter (train_sffn loss_fn adam_step adam_init loader model m' tol h))%Z.
Proof.
  pose proof (lockstep_epochs epoch_cap 0 (init adam_init h)) as [more Hm].
  fold (train_sffn loss_fn adam_step adam_init loader model m tol h) in Hm.
  fold (train_sffn loss_fn adam_step adam_init loader model m' tol h) in Hm.
  split; [now exists more|].
  destruct (tracked_train _ _ _ loss_fn adam_step adam_init loader model m tol h)
    as (H1 & _).
  destruct (tracked_train _ _ _ loss_fn adam_step adam_init loader model m' tol h)
    as (H2 & _).
  rewrite <- H1, <- H2, Hm, length_app. lia.
Qed.

End TwoCaps.

End Train.

(* ------------------------------------------------------------------ *)
(** ** Concrete runs of [train_sffn] *)

Module TrainRuns.
Import PyFloat Train.

(** A model with one integer weight, stored at address 0 and starting at 1.
    Every step raises the weight by one; there is no optimizer state and
    every mini-batch is the same. *)
Definition model0 : module := mkModule 0%nat.
Definition h0 : store Z := fun _ => 1%Z.
Definition step0 (w : Z) (o : unit) (_ : unit) : Z * unit := ((w + 1)%Z, o).

(** One mini-batch per epoch, or two. *)
Definition one_batch (_ : nat) : list unit := [tt].
Definition two_batches (_ : nat) : list unit := [tt; tt].

(** A loss that stays at 1, and a loss equal to the weight (so it rises). *)
Definition flat_loss (_ : Z) (_ : unit) : R := 1.
Definition rising_loss (w : Z) (_ : unit) : R := IZR w.

(** [tol=1e-9] *)
Definition tol0 : R := / 10 ^ 9.

Lemma tol0_bounds : 0 < tol0 < 1.
Proof.
  unfold tol0. split; [apply Rinv_0_lt_compat; lra|].
  assert (/ 10 ^ 9 < / 1) by (apply Rinv_lt_contravar; lra).
  rewrite Rinv_1 in *. assumption.
Qed.

Lemma one_batch_nonempty : forall e, one_batch e <> [].
Proof. discriminate. Qed.

Lemma total_one_batch (n e : nat) : total_batches one_batch n e = Z.of_nat n.
Proof.
  revert e. induction n as [|n IH]; intros e; [reflexivity|].
  change (total_batches one_batch (S n) e)
    with (1 + total_batches one_batch n (S e))%Z.
  rewrite IH. lia.
Qed.

(** The run of the failing input of C5: two steps with losses 1 and 2. *)
Definition rising_run : locals Z unit :=
  train_sffn rising_loss step0 tt two_batches model0 2 tol0 h0.

Lemma rising_run_steps :
  rising_run
  = batch_body rising_loss step0 model0
      (batch_body rising_loss step0 model0 (init tt h0) tt) tt.
Proof.
  unfold rising_run. apply (train_sffn_two_steps _ _ _ _ _ _ _ _ _ _ _ tt tt []).
  - reflexivity.
  - unfold stop. simpl. rewrite orb_false_r. apply ltb_false.
    unfold rising_loss, h0. pose proof tol0_bounds. lra.
  - lia.
Qed.

(** C2, as stated, fails: with max_iters = 0 and one mini-batch the loop
    performs one update and returns num_iter = 1 > max_iters. *)
Lemma iteration_cap_exceeded_at_zero :
  let r := train_sffn flat_loss step0 tt one_batch model0 0 tol0 h0 in
  num_iter r = 1%Z /\ loss_values r = [1] /\ ~ (num_iter r <= 0)%Z.
Proof.
  cbv zeta.
  rewrite (train_sffn_single_step _ _ _ _ _ _ one_batch _ 0 _ _ tt [])
    by (reflexivity || lia).
  repeat split. simpl. lia.
Qed.

(** C3, as stated, fails: with one mini-batch per epoch, losses that stay
    at 1 >= tol and max_iters = 10001, the 10000 epochs run out and the
    call returns with best_loss >= tol and num_iter = 10000 < max_iters. *)
Lemma exit_by_epoch_cap :
  let r := train_sffn flat_loss step0 tt one_batch model0 10001 tol0 h0 in
  (forall e, one_batch e <> []) /\
  num_iter r = 10000%Z /\
  ~ (lt_fin (best_loss r) tol0 = true \/ num_iter r = 10001%Z).
Proof.
  cbv zeta.
  destruct (epoch_cap_exit _ _ _ flat_loss step0 tt one_batch model0 10001 tol0 h0)
    as [Hn Hb].
  - intros w b. unfold flat_loss. pose proof tol0_bounds. lra.
  - rewrite total_one_batch, epoch_cap_Z. lia.
  - rewrite total_one_batch, epoch_cap_Z in Hn.
    split; [exact one_batch_nonempty|]. split; [exact Hn|].
    intros [H | H]; [congruence | lia].
Qed.

(** A single step with max_iters = 1. *)
Lemma train_exit_condition_witness :
  (1 <= 1)%Z /\
  (lt_fin (best_loss (train_sffn flat_loss step0 tt one_batch model0 1 tol0 h0)) tol0 = true \/
   num_iter (train_sffn flat_loss step0 tt one_batch model0 1 tol0 h0) = 1%Z \/
   (num_iter (train_sffn flat_loss step0 tt one_batch model0 1 tol0 h0)
      = total_batches one_batch (Z.to_nat 10000) 0 /\
    (num_iter (train_sffn flat_loss step0 tt one_batch model0 1 tol0 h0) < 1)%Z /\
    lt_fin (best_loss (train_sffn flat_loss step0 tt one_batch model0 1 tol0 h0)) tol0 = false)) /\
  ((forall e, one_batch e <> []) -> (1 <= 10000)%Z ->
   lt_fin (best_loss (train_sffn flat_loss step0 tt one_batch model0 1 tol0 h0)) tol0 = true \/
   num_iter (train_sffn flat_loss step0 tt one_batch model0 1 tol0 h0) = 1%Z).
Proof.
  assert (H : (1 <= 1)%Z) by lia.
  split; [exact H|].
  exact (train_exit_condition _ _ _ flat_loss step0 tt one_batch model0 1 tol0 h0 H).
Defined.

(** C5 on the run with losses 1 then 2 and max_iters = 2: best_loss = 1
    was achieved by the first step, after which the weight was 2; the
    returned best_state reads 3, the weight after the last step, and
    loading it leaves the model at 3. *)
Theorem best_state_holds_last_parameters :
  loss_values rising_run = [1; 2] /\
  best_loss rising_run = Fin 1 /\
  heap (batch_body rising_loss step0 model0 (init tt h0) tt) (W model0) = 2%Z /\
  exists sd,
    best_state rising_run = Some sd /\
    contents (heap rising_run) sd = [("W"%string, 3%Z)] /\
    load_state_dict model0 sd (heap rising_run) (W model0) = 3%Z.
Proof.
  assert (Hlt : fin_lt 2 (Fin 1) = false) by (apply ltb_false; lra).
  rewrite rising_run_steps.
  set (s1 := batch_body rising_loss step0 model0 (init tt h0) tt).
  assert (Hw1 : heap s1 (W model0) = 2%Z) by reflexivity.
  assert (Hb1 : best_loss s1 = Fin 1) by reflexivity.
  assert (Hcur : rising_loss (heap s1 (W model0)) tt = 2) by reflexivity.
  repeat split.
  - now rewrite loss_values_body, Hcur.
  - now rewrite best_loss_body, Hcur, Hb1, Hlt.
  - exists (get_state_dict model0). split.
    + rewrite best_state_body, Hcur, Hb1, Hlt. reflexivity.
    + assert (Hw2 : heap (batch_body rising_loss step0 model0 s1 tt) (W model0) = 3%Z)
        by (rewrite heap_body; reflexivity).
      split.
      * unfold contents, get_state_dict. cbn [map fst snd]. now rewrite Hw2.
      * unfold load_state_dict, get_state_dict. cbn [fold_left snd].
        unfold write at 1. rewrite Nat.eqb_refl. exact Hw2.
Qed.

Lemma best_state_aliases_model_witness :
  best_state rising_run = Some (get_state_dict model0) /\
  contents (heap rising_run) (get_state_dict model0)
    = [("W"%string, heap rising_run (W model0))] /\
  load_state_dict model0 (get_state_dict model0) (heap rising_run) (W model0)
    = heap rising_run (W model0).
Proof.
  assert (H : best_state rising_run = Some (get_state_dict model0)).
  { apply best_state_bound. discriminate. }
  split; [exact H|].
  exact (best_state_aliases_model Z unit unit rising_loss step0 tt two_batches
           model0 2 tol0 h0 (get_state_dict model0) H).
Defined.

Lemma larger_cap_extends_run_witness :
  (1 <= 2)%Z /\
  (exists more,
     loss_values (train_sffn rising_loss step0 tt two_batches model0 2 tol0 h0)
     = loss_values (train_sffn rising_loss step0 tt two_batches model0 1 tol0 h0)
       ++ more) /\
  (num_iter (train_sffn rising_loss step0 tt two_batches model0 1 tol0 h0)
   <= num_iter (train_sffn rising_loss step0 tt two_batches model0 2 tol0 h0))%Z.
Proof.
  assert (H : (1 <= 2)%Z) by lia.
  split; [exact H|].
  exact (larger_cap_extends_run Z unit unit rising_loss step0 tt two_batches
           model0 tol0 1 2 H h0).
Defined.

End TrainRuns.

(* ------------------------------------------------------------------ *)
(** ** The sweep over hidden sizes (section 7 of the script) *)

Module Sweep.
Import Tensor PyFloat.

(** The values stored in [results_dict]. *)
Inductive value : Type :=
| VStr (s : string)
| VInt (n : nat)
| VList (l : list R).

(** A Python dict, in insertion order. *)
Definition pydict : Type := list (string * value).

(** [DataName = 'Wine'] *)
Definition DataName : string := "Wine".

(** [nredfin = int(0.6 * n0) + 1], "same as floor(0.6*n0)+1". *)
Definition nredfin (n0 : nat) : nat := (6 * n0) / 10 + 1.

(** [int(f)] on a binary64 float: truncation toward zero. *)
Definition py_int (f : float) : Z :=
  match Prim2SF f with
  | S754_finite s m e =>
      let v := if (0 <=? e)%Z then Z.shiftl (Zpos m) e
               else Z.shiftr (Zpos m) (- e) in
      if s then (- v)%Z else v
  | _ => 0%Z
  end.

(** [int(0.6 * n0) + 1] as Python evaluates it, in binary64 arithmetic. *)
Definition nredfin_binary64 (n0 : nat) : Z :=
  (py_int (PrimFloat.mul 0x1.3333333333333p-1%float
             (PrimFloat.of_uint63 (Uint63.of_Z (Z.of_nat n0)))) + 1)%Z.

(** [HidDims = list(range(nredstart, nredfin + 1, nredstep))] with
    [nredstart = nredstep = 1]. *)
Definition HidDims (n0 : nat) : list nat := seq 1 (nredfin n0).


(** [PCAErr], [AEErrs] and what [torch.save] last wrote to [SavFilNam]. *)
Record state : Type := mkState {
  PCAErr : list R;
  AEErrs : list R;
  saved : option pydict
}.

(** Rounding does not show: up to 2000 features the binary64 value of
    [int(0.6 * n0) + 1] is the exact one. *)
Lemma nredfin_binary64_exact :
  forallb (fun n0 => Z.eqb (nredfin_binary64 n0) (Z.of_nat (nredfin n0)))
          (seq 0 2001) = true.
Proof. vm_compute. reflexivity. Qed.

Section MainLoop.

(** [N, n0 = Data.shape] *)
Variables N n0 : nat.
(** The prescaled data. *)
Variable X : tensor.
(** [Y = pca_model.fit_transform(X)], [U = pca_model.components_.T] *)
Variables Y U : tensor.

(** The pieces of [train_sffn] that live in torch. *)
Variable Opt : Type.
Variable loss_fn : tensor -> tensor -> R.
Variable adam_step : tensor -> Opt -> tensor -> tensor * Opt.
Variable adam_init : Opt.
(** [DataLoader(TensorDataset(Xrest_t), batch_size=64, shuffle=True)] *)
Variable loader : tensor -> nat -> list tensor.
(** [0.1 * (2.0 * torch.rand(hidden_dim, input_dim) - 1.0)] *)
Variable w_init : nat -> tensor.

(** [PCArecon = Y[:, :nred] @ U[:, :nred].T] *)
Definition PCArecon (nred : nat) : option tensor :=
  matmul (take_cols nred Y) (t (take_cols nred U)).

(** The module object [model]; its parameter lives at address 0. *)
Definition model : Train.module := Train.mkModule 0%nat.

(** [model = OneSymAutoencoder(n0, nred)], then [train_sffn(model, Xrest,
    lr=1e-3, max_iters=5000, tol=1e-9, batch_size=64)], then
    [model.load_state_dict(best_state)]: the weight the model ends with.
    Loading [None] raises. *)
Definition trained_weights (nred : nat) (Xrest : tensor) : option tensor :=
  let h : Train.store tensor := fun _ => w_init nred in
  let r := Train.train_sffn loss_fn adam_step adam_init (loader Xrest)
                            model 5000 (/ 10 ^ 9) h in
  match Train.best_state r with
  | None => None
  | Some best_state =>
      Some (Train.load_state_dict model best_state (Train.heap r) (Train.W model))
  end.

(** One pass of the main loop up to the two errors
    [(final_rmse, pca_rmse)]; [None] when a call raises. *)
Definition errors (nred : nat) : option (R * R) :=
  match PCArecon nred with
  | None => None
  | Some PCArecon =>
      let Xrest := sub X PCArecon in
      match OneSym.forward (OneSym.mkModel (w_init nred)) Xrest with
      | None => None
      | Some _ =>
          match trained_weights nred Xrest with
          | None => None
          | Some Wbest =>
              match OneSym.forward (OneSym.mkModel Wbest) Xrest with
              | None => None
              | Some AEOut =>
                  let final_mse := mse AEOut Xrest in
                  let final_rmse := sqrt final_mse in
                  let pca_mse := mse X PCArecon in
                  let pca_rmse := sqrt pca_mse in
                  Some (final_rmse, pca_rmse)
              end
          end
      end
  end.

(** [results_dict] as pickled at the time of [torch.save]. *)
Definition results_dict (nred : nat) (pcaerr aeerrs : list R) : pydict :=
  [("DataName"%string, VStr DataName);
   ("N"%string, VInt N);
   ("n0"%string, VInt n0);
   ("nred"%string, VInt nred);
   ("PCAErr"%string, VList pcaerr);
   ("AEErrs"%string, VList aeerrs)].

(** One pass of the main loop. *)
Definition iteration (s : state) (nred : nat) : option state :=
  match errors nred with
  | None => None
  | Some (final_rmse, pca_rmse) =>
      let aeerrs := AEErrs s ++ [final_rmse] in
      let pcaerr := PCAErr s ++ [pca_rmse] in
      Some (mkState pcaerr aeerrs (Some (results_dict nred pcaerr aeerrs)))
  end.

(** [for i, nred in enumerate(dims, start=1): ...] *)
Fixpoint sweep (dims : list nat) (s : state) : option state :=
  match dims with
  | [] => Some s
  | nred :: rest =>
      match iteration s nred with
      | None => None
      | Some s' => sweep rest s'
      end
  end.

(** [PCAErr = []; AEErrs = []]; nothing written yet. *)
Definition start : state := mkState [] [] None.

Definition main_loop : option state := sweep (HidDims n0) start.

(** *** When no call raises *)

Hypothesis X_shape : has_shape X N n0.
Hypothesis Y_shape : has_shape Y N n0.
Hypothesis U_shape : has_shape U n0 n0.
(** The initial weight has shape [hidden_dim, input_dim]. *)
Hypothesis w_init_shape : forall nred, has_shape (w_init nred) nred n0.
(** An optimizer step keeps the shape of the parameter. *)
Hypothesis adam_step_shape :
  forall w o b nred, has_shape w nred n0 ->
                     has_shape (fst (adam_step w o b)) nred n0.
(** The data set is not empty: the first epoch has a mini-batch. *)
Hypothesis loader_nonempty : forall Xrest, loader Xrest 0 <> [].

Lemma PCArecon_defined (nred : nat) :
  exists P, PCArecon nred = Some P /\ has_shape P N n0.
Proof.
  destruct Y_shape as (HY & HYr & HYc), U_shape as (HU & HUr & HUc).
  unfold PCArecon.
  destruct (matmul (take_cols nred Y) (t (take_cols nred U))) as [P|] eqn:E.
  - exists P. split; [reflexivity|].
    pose proof (matmul_shape _ _ _ E) as [Hr Hc]. simpl in Hr, Hc.
    split; [|split; lia].
    exact (wf_matmul _ _ _ (wf_take_cols nred Y HY) E).
  - unfold matmul in E. simpl in E.
    rewrite HYc, HUc, Nat.eqb_refl in E. discriminate.
Qed.

Lemma sub_shape (P : tensor) : has_shape P N n0 -> has_shape (sub X P) N n0.
Proof.
  destruct X_shape as (HXw & HXr & HXc). intros (HP & HPr & HPc).
  split; [apply wf_tzip; try assumption; lia | split; assumption].
Qed.

Lemma trained_weights_defined (nred : nat) (Xrest : tensor) :
  exists Wbest,
    trained_weights nred Xrest = Some Wbest /\ has_shape Wbest nred n0.
Proof.
  unfold trained_weights. cbv zeta.
  rewrite Train.best_state_bound by apply loader_nonempty.
  eexists. split; [reflexivity|].
  change (has_shape
            (Train.heap
               (Train.train_sffn loss_fn adam_step adam_init (loader Xrest)
                  model 5000 (/ 10 ^ 9) (fun _ => w_init nred))
               (Train.W model)) nred n0).
  apply (Train.train_heap_inv _ _ _ _ _ _ _ _ _ _ (fun w => has_shape w nred n0)).
  - intros w o b. apply adam_step_shape.
  - apply w_init_shape.
Qed.

Lemma forward_shape (Wt x : tensor) (nred : nat) :
  has_shape Wt nred n0 -> has_shape x N n0 ->
  exists out, OneSym.forward (OneSym.mkModel Wt) x = Some out /\
              has_shape out N n0.
Proof.
  intros HW Hx.
  destruct (OneSym.forward_defined (OneSym.mkModel Wt) x _ _ _ HW Hx)
    as (z & o & _ & _ & Hf & _ & (Ho & Hor & Hoc)).
  exists (t o). split; [exact Hf|].
  split; [now apply wf_t | simpl; split; assumption].
Qed.

(** One pass yields both errors. *)
Lemma errors_defined (nred : nat) :
  exists P Wbest AEOut,
    PCArecon nred = Some P /\ has_shape P N n0 /\
    trained_weights nred (sub X P) = Some Wbest /\
    has_shape Wbest nred n0 /\
    OneSym.forward (OneSym.mkModel Wbest) (sub X P) = Some AEOut /\
    has_shape AEOut N n0 /\
    errors nred = Some (sqrt (mse AEOut (sub X P)), sqrt (mse X P)).
Proof.
  destruct (PCArecon_defined nred) as (P & EP & HP).
  pose proof (sub_shape P HP) as Hrest.
  destruct (forward_shape (w_init nred) (sub X P) nred (w_init_shape nred) Hrest)
    as (out0 & E0 & _).
  destruct (trained_weights_defined nred (sub X P)) as (Wb & EW & HWb).
  destruct (forward_shape Wb (sub X P) nred HWb Hrest) as (AEOut & EA & HA).
  exists P, Wb, AEOut. repeat (split; [assumption|]).
  unfold errors. now rewrite EP, E0, EW, EA.
Qed.






(** *** The claims about the main loop *)



(** *** Further facts about the main loop *)

Lemma rsum_all_zero (f : nat -> R) (n : nat) :
  (forall k, (k < n)%nat -> f k = 0) -> rsum f n = 0.
Proof.
  intros H. rewrite (rsum_ext f (fun _ => 0)) by exact H. apply rsum_zero.
Qed.

(** When the first nred principal components reproduce X exactly, both
    entries are 0 whatever the training did: the residual is 0 and the
    model maps it to 0. *)
Theorem exact_pca_zero_errors (nred : nat) (P : tensor) :
  PCArecon nred = Some P ->
  (forall i j, (i < N)%nat -> (j < n0)%nat -> get P i j = get X i j) ->
  errors nred = Some (0, 0).
Proof.
  intros EP Hexact.
  destruct (errors_defined nred)
    as (P' & Wb & AEOut & EP' & HP & EW & HWb & EA & HA & Eerr).
  assert (P' = P) by congruence. subst P'.
  pose proof (sub_shape P HP) as Hrest.
  assert (Hzero : forall i j, (i < N)%nat -> (j < n0)%nat ->
                              get (sub X P) i j = 0).
  { intros i j Hi Hj.
    destruct X_shape as (HXw & HXr & HXc), HP as (HPw & HPr & HPc).
    unfold sub. rewrite get_tzip by (try assumption; lia).
    rewrite Hexact by assumption. lra. }
  assert (Hout : forall i j, (i < N)%nat -> (j < n0)%nat -> get AEOut i j = 0)
    by exact (OneSym.forward_zero_input (OneSym.mkModel Wb) _ AEOut nred n0 N
                HWb Hrest Hzero EA).
  assert (Hae : mse AEOut (sub X P) = 0).
  { rewrite (mse_rsum _ _ N n0 HA Hrest).
    rewrite rsum_all_zero; [unfold Rdiv; apply Rmult_0_l|].
    intros i Hi. apply rsum_all_zero. intros j Hj.
    rewrite Hout, Hzero by assumption. lra. }
  assert (Hpca : mse X P = 0).
  { rewrite (mse_rsum _ _ N n0 X_shape HP).
    rewrite rsum_all_zero; [unfold Rdiv; apply Rmult_0_l|].
    intros i Hi. apply rsum_all_zero. intros j Hj.
    rewrite Hexact by assumption. lra. }
  now rewrite Eerr, Hae, Hpca, sqrt_0.
Qed.

End MainLoop.

Arguments trained_weights {Opt}.
Arguments errors X Y U {Opt}.
Arguments iteration N n0 X Y U {Opt}.
Arguments sweep N n0 X Y U {Opt}.
Arguments main_loop N n0 X Y U {Opt}.

(** *** The script as a whole *)

(** How a run of the script ends. *)
Inductive outcome : Type :=
| Raised                    (* an exception *)
| Exited                    (* sys.exit() in section 3 *)
| Finished (s : state).

Section Script.

(** [PCA(n_components=n0)]: [fit_transform(X)] and [components_.T]. *)
Variable pca : tensor -> tensor * tensor.
Variable Opt : Type.
Variable loss_fn : tensor -> tensor -> R.
Variable adam_step : tensor -> Opt -> tensor -> tensor * Opt.
Variable adam_init : Opt.
Variable loader : tensor -> nat -> list tensor.
Variable w_init : nat -> tensor.

(** Sections 2 to 7: prescale, fit the PCA, sweep. *)
Definition script (Data : tensor) : outcome :=
  match Prescale.prescale Data with
  | Prescale.ValueError => Raised
  | Prescale.SysExit => Exited
  | Prescale.Proceeds X =>
      let (Y, U) := pca X in
      match main_loop (nrow Data) (ncol Data) X Y U
                      loss_fn adam_step adam_init loader w_init with
      | None => Raised
      | Some s => Finished s
      end
  end.


End Script.

Arguments script pca {Opt}.

(** With at least one feature the sweep is not empty and no hidden size
    exceeds the number of features, so [Y[:, :nred]] and [U[:, :nred]]
    always have nred columns. *)
Theorem HidDims_within_features (n0 : nat) :
  (1 <= n0)%nat ->
  HidDims n0 <> [] /\
  Forall (fun nred => (1 <= nred <= n0)%nat) (HidDims n0) /\
  forall nred (Y : tensor),
    In nred (HidDims n0) -> ncol Y = n0 -> ncol (take_cols nred Y) = nred.
Proof.
  intros Hn.
  assert (Hfin : (nredfin n0 <= n0)%nat).
  { unfold nredfin.
    assert ((6 * n0) / 10 < n0)%nat
      by (apply Nat.Div0.div_lt_upper_bound; lia).
    lia. }
  assert (Hall : forall nred, In nred (HidDims n0) -> (1 <= nred <= n0)%nat).
  { intros nred Hin. unfold HidDims in Hin. apply in_seq in Hin. lia. }
  split; [|split].
  - unfold HidDims, nredfin. rewrite Nat.add_1_r. discriminate.
  - apply Forall_forall. exact Hall.
  - intros nred Y Hin HY. simpl. rewrite HY.
    specialize (Hall nred Hin). lia.
Qed.

Lemma HidDims_within_features_witness :
  (1 <= 13)%nat /\
  HidDims 13 <> [] /\
  Forall (fun nred => (1 <= nred <= 13)%nat) (HidDims 13) /\
  forall nred (Y : tensor),
    In nred (HidDims 13) -> ncol Y = 13%nat -> ncol (take_cols nred Y) = nred.
Proof.
  assert (H : (1 <= 13)%nat) by lia.
  split; [exact H|]. exact (HidDims_within_features 13 H).
Defined.

End Sweep.

(* ------------------------------------------------------------------ *)
(** ** Concrete sweeps *)

Module SweepRuns.
Import Tensor PyFloat Sweep.

(** X = [[2]], reproduced exactly by its first principal component. *)
Definition X1 : tensor := mkT 1 1 [[2]].
Definition Y1 : tensor := mkT 1 1 [[2]].
Definition U1 : tensor := mkT 1 1 [[1]].

(** A training that leaves the weights as they are; one mini-batch, the
    whole data, per epoch; all initial weights equal to 1. *)
Definition loss1 (_ _ : tensor) : R := 1.
Definition step1 (w : tensor) (o : unit) (_ : tensor) : tensor * unit := (w, o).
Definition loader1 (Xrest : tensor) (_ : nat) : list tensor := [Xrest].
Definition w1 (nred : nat) : tensor := mkT nred 1 (repeat [1] nred).
Lemma X1_shape : has_shape X1 1 1.
Proof. repeat split; simpl; repeat constructor. Defined.

Lemma Y1_shape : has_shape Y1 1 1.
Proof. repeat split; simpl; repeat constructor. Defined.

Lemma U1_shape : has_shape U1 1 1.
Proof. repeat split; simpl; repeat constructor. Defined.

Lemma w1_shape (nred : nat) : has_shape (w1 nred) nred 1.
Proof.
  repeat split; simpl.
  - apply repeat_length.
  - apply Forall_forall. intros r Hr. apply repeat_spec in Hr. now subst r.
Defined.

Lemma step1_shape (w : tensor) (o : unit) (b : tensor) (nred : nat) :
  has_shape w nred 1 -> has_shape (fst (step1 w o b)) nred 1.
Proof. exact (fun H => H). Defined.

Lemma loader1_nonempty (Xrest : tensor) : loader1 Xrest 0 <> [].
Proof. discriminate. Defined.










Lemma exact_pca_zero_errors_witness :
  has_shape X1 1 1 /\ has_shape Y1 1 1 /\ has_shape U1 1 1 /\
  (forall nred, has_shape (w1 nred) nred 1) /\
  (forall w o b nred, has_shape w nred 1 ->
                      has_shape (fst (step1 w o b)) nred 1) /\
  (forall Xrest, loader1 Xrest 0 <> []) /\
  PCArecon Y1 U1 1 = Some (mkT 1 1 [[2 * 1 + 0]]) /\
  (forall i j, (i < 1)%nat -> (j < 1)%nat ->
               get (mkT 1 1 [[2 * 1 + 0]]) i j = get X1 i j) /\
  errors X1 Y1 U1 loss1 step1 tt loader1 w1 1 = Some (0, 0).
Proof.
  assert (HP : PCArecon Y1 U1 1 = Some (mkT 1 1 [[2 * 1 + 0]])) by reflexivity.
  assert (He : forall i j, (i < 1)%nat -> (j < 1)%nat ->
                           get (mkT 1 1 [[2 * 1 + 0]]) i j = get X1 i j).
  { intros i j Hi Hj. assert (i = 0%nat) by lia. assert (j = 0%nat) by lia.
    subst. unfold get, row. simpl. lra. }
  split; [exact X1_shape|]. split; [exact Y1_shape|]. split; [exact U1_shape|].
  split; [exact w1_shape|]. split; [exact step1_shape|].
  split; [exact loader1_nonempty|]. split; [exact HP|]. split; [exact He|].
  exact (exact_pca_zero_errors 1 1 X1 Y1 U1 unit loss1 step1 tt loader1 w1
           X1_shape Y1_shape U1_shape w1_shape step1_shape loader1_nonempty
           1%nat _ HP He).
Defined.



End SweepRuns.

(* ------------------------------------------------------------------ *)
(** ** The numbers printed by [matlab_style_report] *)

Module Report.
Import Tensor.

(** [torch.norm(T, p='fro')]: the root of the sum of all squared entries. *)
Definition fro_norm (T : tensor) : R :=
  sqrt (lsum (map lsum (rows (tmap (fun d => d * d) T)))).

(** [torch.sum(T**2, dim=1)]: one sum of squares per row. *)
Definition sum_sq_dim1 (T : tensor) : list R :=
  map (fun r => lsum (map (fun d => d * d) r)) (rows T).

(** [torch.norm(v, p=2)] on a vector. *)
Definition norm2 (v : list R) : R := sqrt (lsum (map (fun d => d * d) v)).

(** [torch.mean(v)] on a vector. *)
Definition vmean (v : list R) : R := lsum v / INR (length v).

(** The three quantities the report prints after the tensor table. *)
Record report : Type := mkReport {
  fro : R;          (* "Frobenius-norm of difference" *)
  l2_of_tmp1 : R;   (* "L2-norm of Tmp1" *)
  mrse_val : R      (* "MRSE of Tmp1" *)
}.

(** [matlab_style_report(Xrest, AEOut, ...)]: the three numbers it
    computes, as real numbers; the float32 rounding of torch and the
    formatting of the prints are left out.
    AEDiff = AEOut - Xrest; Tmp1 = sum(AEDiff**2, dim=1). *)
Definition matlab_style_report (Xrest AEOut : tensor) : report :=
  let AEDiff := sub AEOut Xrest in
  let Tmp1 := sum_sq_dim1 AEDiff in
  mkReport (fro_norm AEDiff) (norm2 Tmp1) (vmean (map sqrt Tmp1)).

(** *** Facts *)

Lemma lsum_nonneg (l : list R) : (forall x, In x l -> 0 <= x) -> 0 <= lsum l.
Proof.
  induction l as [|a l IH]; intros H; simpl; [lra|].
  pose proof (H a (or_introl eq_refl)).
  assert (0 <= lsum l) by (apply IH; intros x Hx; apply H; now right).
  lra.
Qed.

Lemma lsum_sq_nonneg (r : list R) : 0 <= lsum (map (fun d => d * d) r).
Proof.
  apply lsum_nonneg. intros x Hx. apply in_map_iff in Hx as [d [<- _]]. nra.
Qed.

Lemma sum_sq_dim1_nonneg (T : tensor) (x : R) : In x (sum_sq_dim1 T) -> 0 <= x.
Proof.
  unfold sum_sq_dim1. intros Hx. apply in_map_iff in Hx as [r [<- _]].
  apply lsum_sq_nonneg.
Qed.

(** The sum of all squared entries, by rows. *)
Lemma fro_sum (T : tensor) :
  lsum (map lsum (rows (tmap (fun d => d * d) T))) = lsum (sum_sq_dim1 T).
Proof. unfold sum_sq_dim1. simpl. now rewrite map_map. Qed.

Lemma fro_total (A B : tensor) (N n0 : nat) :
  has_shape A N n0 -> (0 < N * n0)%nat ->
  lsum (sum_sq_dim1 (sub A B)) = INR (N * n0) * mse A B.
Proof.
  intros (_ & Hr & Hc) Hpos. rewrite <- fro_sum. unfold mse, mean.
  simpl nrow. simpl ncol. rewrite Hr, Hc.
  assert (INR (N * n0) <> 0) by (apply not_0_INR; lia).
  field. assumption.
Qed.

(** Cauchy-Schwarz for the roots of non-negative numbers. *)
Lemma sum_sqrt_cross (l : list R) (s : R) :
  (forall x, In x l -> 0 <= x) ->
  2 * s * lsum (map sqrt l) <= lsum l + INR (length l) * (s * s).
Proof.
  induction l as [|a l IH]; intros H.
  - simpl. lra.
  - change (lsum (map sqrt (a :: l))) with (sqrt a + lsum (map sqrt l)).
    change (lsum (a :: l)) with (a + lsum l).
    change (length (a :: l)) with (S (length l)). rewrite S_INR.
    assert (Ha : 0 <= a) by (apply H; now left).
    assert (IH' : 2 * s * lsum (map sqrt l) <= lsum l + INR (length l) * (s * s))
      by (apply IH; intros x Hx; apply H; now right).
    pose proof (sqrt_sqrt a Ha) as Hsq.
    pose proof (Rle_0_sqr (sqrt a - s)) as Hsqr. unfold Rsqr in Hsqr.
    nra.
Qed.

Lemma sum_sqrt_square (l : list R) :
  (forall x, In x l -> 0 <= x) ->
  lsum (map sqrt l) * lsum (map sqrt l) <= INR (length l) * lsum l.
Proof.
  induction l as [|a l IH]; intros H.
  - simpl. lra.
  - change (lsum (map sqrt (a :: l))) with (sqrt a + lsum (map sqrt l)).
    change (lsum (a :: l)) with (a + lsum l).
    change (length (a :: l)) with (S (length l)). rewrite S_INR.
    assert (Ha : 0 <= a) by (apply H; now left).
    assert (Hl : forall x, In x l -> 0 <= x) by (intros x Hx; apply H; now right).
    pose proof (IH Hl) as IH'.
    pose proof (sum_sqrt_cross l (sqrt a) Hl) as Hc.
    pose proof (sqrt_sqrt a Ha) as Hsq.
    pose proof (lsum_nonneg l Hl).
    nra.
Qed.

Lemma lsum_sq_le_square (l : list R) :
  (forall x, In x l -> 0 <= x) ->
  lsum (map (fun d => d * d) l) <= lsum l * lsum l.
Proof.
  induction l as [|a l IH]; intros H.
  - simpl. lra.
  - change (lsum (map (fun d => d * d) (a :: l)))
      with (a * a + lsum (map (fun d => d * d) l)).
    change (lsum (a :: l)) with (a + lsum l).
    assert (Ha : 0 <= a) by (apply H; now left).
    assert (Hl : forall x, In x l -> 0 <= x) by (intros x Hx; apply H; now right).
    pose proof (IH Hl). pose proof (lsum_nonneg l Hl). nra.
Qed.

Lemma div_nonneg (a b : R) : 0 <= a -> 0 < b -> 0 <= a / b.
Proof.
  intros Ha Hb. unfold Rdiv. apply Rmult_le_pos; [exact Ha|].
  left. now apply Rinv_0_lt_compat.
Qed.

(** As real numbers, before float32 rounding and the four-digit
    formatting of the print: the Frobenius norm of the report is
    sqrt(N n0) times the root-mean-squared error of AEOut against Xrest,
    the number passed in as AEErr. *)
Theorem fro_is_scaled_rmse (Xrest AEOut : tensor) (N n0 : nat) :
  has_shape AEOut N n0 -> has_shape Xrest N n0 -> (0 < N * n0)%nat ->
  fro (matlab_style_report Xrest AEOut)
  = sqrt (INR (N * n0)) * sqrt (mse AEOut Xrest).
Proof.
  intros HA _ Hpos. simpl. unfold fro_norm.
  rewrite fro_sum, (fro_total AEOut Xrest N n0 HA Hpos).
  apply sqrt_mult_alt. apply pos_INR.
Qed.

(** As real numbers, before float32 rounding and the four-digit
    formatting of the print: the mean per-sample error reported as MRSE is
    non-negative and at most sqrt(n0) times the root-mean-squared error
    passed in as AEErr. *)
Theorem mrse_below_scaled_rmse (Xrest AEOut : tensor) (N n0 : nat) :
  has_shape AEOut N n0 -> has_shape Xrest N n0 -> (0 < N * n0)%nat ->
  0 <= mrse_val (matlab_style_report Xrest AEOut)
    <= sqrt (INR n0) * sqrt (mse AEOut Xrest).
Proof.
  intros HA HX Hpos. simpl. unfold vmean. rewrite length_map.
  set (Tmp1 := sum_sq_dim1 (sub AEOut Xrest)).
  assert (Hlen : length Tmp1 = N).
  { unfold Tmp1, sum_sq_dim1. rewrite length_map.
    destruct HA as (HAw & HAr & HAc), HX as (HXw & HXr & HXc).
    destruct (wf_tzip Rminus AEOut Xrest HAw HXw) as [Hl _]; try lia.
    unfold sub. rewrite Hl. simpl. exact HAr. }
  assert (Hnn : forall x, In x Tmp1 -> 0 <= x)
    by (intros x; apply sum_sq_dim1_nonneg).
  assert (Hroots : 0 <= lsum (map sqrt Tmp1)).
  { apply lsum_nonneg. intros x Hx. apply in_map_iff in Hx as [y [<- _]].
    apply sqrt_pos. }
  pose proof (sum_sqrt_square Tmp1 Hnn) as Hcs.
  rewrite Hlen in *.
  assert (Htot : lsum Tmp1 = INR (N * n0) * mse AEOut Xrest)
    by (apply fro_total with (1 := HA); exact Hpos).
  rewrite Htot, mult_INR in Hcs.
  assert (HN : 0 < INR N) by (apply lt_0_INR; nia).
  assert (Hn0 : 0 <= INR n0) by apply pos_INR.
  assert (Hmse : 0 <= INR n0 * mse AEOut Xrest).
  { pose proof (lsum_nonneg Tmp1 Hnn) as H0. rewrite Htot, mult_INR in H0.
    nra. }
  rewrite <- sqrt_mult_alt by exact Hn0.
  set (S := lsum (map sqrt Tmp1)) in *.
  set (q := INR n0 * mse AEOut Xrest) in *.
  split.
  - apply div_nonneg; lra.
  - assert (Hsq : (S / INR N) * (S / INR N) <= q).
    { unfold Rdiv. apply (Rmult_le_reg_r (INR N * INR N)); [nra|].
      replace (S * / INR N * (S * / INR N) * (INR N * INR N))
        with (S * S) by (field; lra).
      unfold q. eapply Rle_trans; [exact Hcs|]. right. ring. }
    assert (H0 : 0 <= S / INR N) by (apply div_nonneg; lra).
    rewrite <- (sqrt_square (S / INR N)) by exact H0.
    now apply sqrt_le_1_alt.
Qed.

(** As real numbers, before float32 rounding and the four-digit
    formatting of the print: the L2 norm of the per-sample sums of squares
    never exceeds the squared Frobenius norm. *)
Theorem l2_below_fro_squared (Xrest AEOut : tensor) :
  l2_of_tmp1 (matlab_style_report Xrest AEOut)
  <= fro (matlab_style_report Xrest AEOut)
     * fro (matlab_style_report Xrest AEOut).
Proof.
  simpl. unfold fro_norm, norm2. rewrite fro_sum.
  set (Tmp1 := sum_sq_dim1 (sub AEOut Xrest)).
  assert (Hnn : forall x, In x Tmp1 -> 0 <= x)
    by (intros x; apply sum_sq_dim1_nonneg).
  pose proof (lsum_nonneg Tmp1 Hnn) as H0.
  rewrite sqrt_sqrt by exact H0.
  rewrite <- (sqrt_square (lsum Tmp1)) by exact H0.
  apply sqrt_le_1_alt. now apply lsum_sq_le_square.
Qed.

Lemma fro_is_scaled_rmse_witness :
  let AEOut := mkT 1 2 [[1; 2]] in
  let Xrest := mkT 1 2 [[0; 4]] in
  has_shape AEOut 1 2 /\ has_shape Xrest 1 2 /\ (0 < 1 * 2)%nat /\
  fro (matlab_style_report Xrest AEOut)
  = sqrt (INR (1 * 2)) * sqrt (mse AEOut Xrest).
Proof.
  intros AEOut Xrest.
  assert (HA : has_shape AEOut 1 2) by (repeat split; simpl; repeat constructor).
  assert (HX : has_shape Xrest 1 2) by (repeat split; simpl; repeat constructor).
  assert (Hp : (0 < 1 * 2)%nat) by (simpl; lia).
  split; [exact HA|]. split; [exact HX|]. split; [exact Hp|].
  exact (fro_is_scaled_rmse Xrest AEOut 1 2 HA HX Hp).
Defined.

Lemma mrse_below_scaled_rmse_witness :
  let AEOut := mkT 1 2 [[1; 2]] in
  let Xrest := mkT 1 2 [[0; 4]] in
  has_shape AEOut 1 2 /\ has_shape Xrest 1 2 /\ (0 < 1 * 2)%nat /\
  0 <= mrse_val (matlab_style_report Xrest AEOut)
    <= sqrt (INR 2) * sqrt (mse AEOut Xrest).
Proof.
  intros AEOut Xrest.
  assert (HA : has_shape AEOut 1 2) by (repeat split; simpl; repeat constructor).
  assert (HX : has_shape Xrest 1 2) by (repeat split; simpl; repeat constructor).
  assert (Hp : (0 < 1 * 2)%nat) by (simpl; lia).
  split; [exact HA|]. split; [exact HX|]. split; [exact Hp|].
  exact (mrse_below_scaled_rmse Xrest AEOut 1 2 HA HX Hp).
Defined.

End Report.

(* ------------------------------------------------------------------ *)
(** ** The table rows printed by [matlab_print_tensor] *)

Module PrintTensor.

Open Scope string_scope.

(** [tensor.dtype]; for a type other than the two named ones, its
    [str(...)] and its [element_size()]. *)
Inductive dtype : Type :=
| float64
| float32
| other (name : string) (size : nat).

(** What the row needs of a tensor: [tensor.shape] and [tensor.dtype]. *)
Record tensor_info : Type := mkInfo { shape : list nat; dtype_of : dtype }.

(** [tensor.element_size()] *)
Definition element_size (d : dtype) : nat :=
  match d with
  | float64 => 8
  | float32 => 4
  | other _ size => size
  end.

(** [tensor.numel()] *)
Definition numel (sh : list nat) : nat := fold_right Nat.mul 1%nat sh.

(** [str(n)] for a non-negative integer. *)
Definition str (n : nat) : string := NilEmpty.string_of_uint (Nat.to_uint n).

(** [sep.join(l)] *)
Fixpoint join (sep : string) (l : list string) : string :=
  match l with
  | [] => EmptyString
  | [s] => s
  | s :: rest => s ++ sep ++ join sep rest
  end.

Fixpoint spaces (n : nat) : string :=
  match n with
  | O => EmptyString
  | S n' => " " ++ spaces n'
  end.

(** [{s:<w}], the default for strings: pad on the right, never cut. *)
Definition ljust (w : nat) (s : string) : string :=
  s ++ spaces (w - String.length s).

(** [{s:>w}], the default for integers: pad on the left, never cut. *)
Definition rjust (w : nat) (s : string) : string :=
  spaces (w - String.length s) ++ s.

Definition shape_str (T : tensor_info) : string := join "x" (map str (shape T)).

Definition nbytes (T : tensor_info) : nat :=
  (element_size (dtype_of T) * numel (shape T))%nat.

Definition class_str (T : tensor_info) : string :=
  match dtype_of T with
  | float64 => "double"
  | float32 => "single"
  | other name _ => name
  end.

(** The line printed by [matlab_print_tensor(name, tensor)]:
    [f"  {name:12s}  {shape_str:>8s}  {nbytes:12d}  {class_str:6s}"]. *)
Definition matlab_print_tensor (name : string) (T : tensor_info) : string :=
  "  " ++ ljust 12 name ++ "  " ++ rjust 8 (shape_str T) ++ "  "
  ++ rjust 12 (str (nbytes T)) ++ "  " ++ ljust 6 (class_str T).

(** *** Facts *)

Lemma length_append (s1 s2 : string) :
  String.length (s1 ++ s2) = (String.length s1 + String.length s2)%nat.
Proof. induction s1 as [|c s1 IH]; simpl; [reflexivity | now rewrite IH]. Qed.

Lemma length_spaces (n : nat) : String.length (spaces n) = n.
Proof. induction n as [|n IH]; simpl; [reflexivity | now rewrite IH]. Qed.

Lemma length_ljust (w : nat) (s : string) :
  String.length (ljust w s) = Nat.max w (String.length s).
Proof. unfold ljust. rewrite length_append, length_spaces. lia. Qed.

Lemma length_rjust (w : nat) (s : string) :
  String.length (rjust w s) = Nat.max w (String.length s).
Proof. unfold rjust. rewrite length_append, length_spaces. lia. Qed.

(** No field of a row is ever cut, so a row is 46 characters wide exactly
    when every field fits its column (name 12, shape 8, bytes 12, class 6)
    and wider by the overflow otherwise; the rows of float64 and float32
    tensors never overflow the class column. *)
Theorem row_width (name : string) (T : tensor_info) :
  String.length (matlab_print_tensor name T)
  = (8 + Nat.max 12 (String.length name)
       + Nat.max 8 (String.length (shape_str T))
       + Nat.max 12 (String.length (str (nbytes T)))
       + Nat.max 6 (String.length (class_str T)))%nat /\
  ((String.length name <= 12)%nat ->
   (String.length (shape_str T) <= 8)%nat ->
   (String.length (str (nbytes T)) <= 12)%nat ->
   (String.length (class_str T) <= 6)%nat ->
   String.length (matlab_print_tensor name T) = 46%nat) /\
  (dtype_of T = float64 \/ dtype_of T = float32 ->
   String.length (class_str T) = 6%nat).
Proof.
  assert (Hw : String.length (matlab_print_tensor name T)
               = (8 + Nat.max 12 (String.length name)
                  + Nat.max 8 (String.length (shape_str T))
                  + Nat.max 12 (String.length (str (nbytes T)))
                  + Nat.max 6 (String.length (class_str T)))%nat).
  { unfold matlab_print_tensor.
    rewrite !length_append, !length_ljust, !length_rjust. simpl. lia. }
  split; [exact Hw|]. split.
  - intros H1 H2 H3 H4. rewrite Hw. lia.
  - unfold class_str. intros [-> | ->]; reflexivity.
Qed.

(** The row of the docstring: AEDiff, 178x13, float64. *)
Lemma row_width_witness :
  let T := mkInfo [178%nat; 13%nat] float64 in
  (String.length "AEDiff" <= 12)%nat /\
  (String.length (shape_str T) <= 8)%nat /\
  (String.length (str (nbytes T)) <= 12)%nat /\
  (String.length (class_str T) <= 6)%nat /\
  String.length (matlab_print_tensor "AEDiff" T) = 46%nat /\
  matlab_print_tensor "AEDiff" T
  = "  AEDiff          178x13         18512  double".
Proof.
  intros T.
  assert (H1 : (String.length "AEDiff" <= 12)%nat) by (vm_compute; lia).
  assert (H2 : (String.length (shape_str T) <= 8)%nat) by (vm_compute; lia).
  assert (H3 : (String.length (str (nbytes T)) <= 12)%nat) by (vm_compute; lia).
  assert (H4 : (String.length (class_str T) <= 6)%nat) by (vm_compute; lia).
  split; [exact H1|]. split; [exact H2|]. split; [exact H3|].
  split; [exact H4|]. split.
  - exact (proj1 (proj2 (row_width "AEDiff" T)) H1 H2 H3 H4).
  - vm_compute. reflexivity.
Defined.

End PrintTensor.

(* ------------------------------------------------------------------ *)
(** ** Comparisons of binary64 floats *)

Module Float64.

Ltac split_compares :=
  repeat match goal with
         | |- context [Z.compare ?a ?b] => destruct (Z.compare_spec a b)
         | |- context [Pos.compare_cont Eq ?a ?b] =>
             change (Pos.compare_cont Eq a b) with (Pos.compare a b);
             destruct (Pos.compare_spec a b)
         end.

Ltac spec_cases :=
  simpl; try discriminate; try reflexivity; try congruence;
  split_compares; subst; simpl;
  try discriminate; try reflexivity; try congruence; try lia.

(** [<] is transitive, on all values. *)
Lemma SFltb_trans (x y z : spec_float) :
  SFltb x y = true -> SFltb y z = true -> SFltb x z = true.
Proof.
  unfold SFltb.
  destruct x as [[|]|[|]| |[|] mx ex], y as [[|]|[|]| |[|] my ey],
           z as [[|]|[|]| |[|] mz ez]; spec_cases.
Qed.

(** If c < t and not c < b, with b not NaN, then b < t. *)
Lemma SFltb_below (c b t : spec_float) :
  SFltb c t = true -> SFltb c b = false -> b <> S754_nan -> SFltb b t = true.
Proof.
  unfold SFltb.
  destruct c as [[|]|[|]| |[|] mc ec], b as [[|]|[|]| |[|] mb eb],
           t as [[|]|[|]| |[|] mt et]; spec_cases.
Qed.


Lemma ltb_trans (x y z : float) :
  PrimFloat.ltb x y = true -> PrimFloat.ltb y z = true ->
  PrimFloat.ltb x z = true.
Proof. rewrite !FloatAxioms.ltb_spec. apply SFltb_trans. Qed.

Lemma ltb_irrefl (x : float) : PrimFloat.ltb x x = false.
Proof.
  rewrite FloatAxioms.ltb_spec. unfold SFltb.
  destruct (Prim2SF x) as [[|]|[|]| |[|] m e]; simpl; try reflexivity;
    rewrite Z.compare_refl, Pos.compare_cont_refl; reflexivity.
Qed.

Lemma is_nan_spec (x : float) :
  PrimFloat.is_nan x = true <-> Prim2SF x = S754_nan.
Proof.
  unfold PrimFloat.is_nan. rewrite FloatAxioms.eqb_spec. unfold SFeqb.
  destruct (Prim2SF x) as [[|]|[|]| |[|] m e]; simpl;
    rewrite ?Z.compare_refl, ?Pos.compare_cont_refl; simpl;
    split; congruence.
Qed.

Lemma not_nan_spec (x : float) :
  PrimFloat.is_nan x = false <-> Prim2SF x <> S754_nan.
Proof.
  rewrite <- is_nan_spec. destruct (PrimFloat.is_nan x); split; congruence.
Qed.

(** A comparison that holds has no NaN operand. *)
Lemma ltb_not_nan (x y : float) :
  PrimFloat.ltb x y = true ->
  PrimFloat.is_nan x = false /\ PrimFloat.is_nan y = false.
Proof.
  rewrite FloatAxioms.ltb_spec, !not_nan_spec. unfold SFltb.
  destruct (Prim2SF x), (Prim2SF y); simpl; intros H; split; congruence.
Qed.

Lemma ltb_below (c b t : float) :
  PrimFloat.ltb c t = true -> PrimFloat.ltb c b = false ->
  PrimFloat.is_nan b = false -> PrimFloat.ltb b t = true.
Proof.
  rewrite !FloatAxioms.ltb_spec, not_nan_spec. apply SFltb_below.
Qed.



(** The only number that is not below [float('inf')] is [float('inf')]. *)
Lemma not_below_infinity (x : float) :
  PrimFloat.is_nan x = false ->
  PrimFloat.ltb x PrimFloat.infinity = false -> x = PrimFloat.infinity.
Proof.
  rewrite not_nan_spec, FloatAxioms.ltb_spec. intros Hn Hlt.
  apply Prim2SF_inj.
  change (Prim2SF PrimFloat.infinity) with (S754_infinity false) in *.
  unfold SFltb in Hlt.
  destruct (Prim2SF x) as [[|]|[|]| |[|] m e]; simpl in Hlt;
    congruence.
Qed.


(** [float('inf')] is below nothing. *)
Lemma infinity_not_below (t : float) :
  PrimFloat.ltb PrimFloat.infinity t = false.
Proof.
  rewrite FloatAxioms.ltb_spec.
  change (Prim2SF PrimFloat.infinity) with (S754_infinity false).
  unfold SFltb. destruct (Prim2SF t) as [[|]|[|]| |[|] m e]; reflexivity.
Qed.

End Float64.

(* ------------------------------------------------------------------ *)
(** ** Section 3 in binary64: the constant-variable guard as NumPy
       evaluates it *)

Module Guard64.

(** A two-dimensional float64 [ndarray]. *)
Record ndarray : Type := mkA {
  nrow : nat;
  ncol : nat;
  rows : list (list float)
}.

(** [D[:, j]] *)
Definition col (j : nat) (D : ndarray) : list float :=
  map (fun r => nth j r PrimFloat.zero) (rows D).

(** [np.minimum], [np.maximum]: a NaN operand is the result. *)
Definition minimum (a b : float) : float :=
  if PrimFloat.is_nan a then a else if PrimFloat.ltb a b then a else b.
Definition maximum (a b : float) : float :=
  if PrimFloat.is_nan a then a else if PrimFloat.ltb b a then a else b.

(** The reduction of a non-empty column, from its first entry on. *)
Definition lmin (l : list float) : float :=
  match l with [] => PrimFloat.nan | a :: l' => fold_left minimum l' a end.
Definition lmax (l : list float) : float :=
  match l with [] => PrimFloat.nan | a :: l' => fold_left maximum l' a end.

(** [minD = Data.min(axis=0)], [maxD = Data.max(axis=0)] for N >= 1. *)
Definition min_axis0 (D : ndarray) : list float :=
  map (fun j => lmin (col j D)) (seq 0 (ncol D)).
Definition max_axis0 (D : ndarray) : list float :=
  map (fun j => lmax (col j D)) (seq 0 (ncol D)).

(** [maxD - minD], each entry rounded to binary64. *)
Definition range_axis0 (Data : ndarray) : list float :=
  map (fun p => PrimFloat.sub (fst p) (snd p))
      (combine (max_axis0 Data) (min_axis0 Data)).

(** [np.finfo(float).eps] and [np.sqrt(np.finfo(float).eps)] *)
Definition eps : float := 0x1p-52%float.
Definition threshold : float := PrimFloat.sqrt eps.

(** [np.any(np.abs(maxD - minD) < np.sqrt(np.finfo(float).eps))] *)
Definition constant_variables (Data : ndarray) : bool :=
  existsb (fun d => PrimFloat.ltb (PrimFloat.abs d) threshold)
          (range_axis0 Data).

(** [cofs = 2.0 / (maxD - minD)] *)
Definition cofs (Data : ndarray) : list float :=
  map (fun d => PrimFloat.div 2%float d) (range_axis0 Data).

(** How the script goes on from the loaded data: the reductions raise on
    zero samples, the guard calls [sys.exit()], or [cofs] is computed and
    the rest of the script (scaling, PCA, the training sweep, the plots)
    runs. *)
Inductive outcome (Later : Type) : Type :=
| Raised
| Exited
| Continued (cofs : list float) (later : Later).

Arguments Raised {Later}.
Arguments Exited {Later}.
Arguments Continued {Later}.

Definition script {Later : Type} (rest : ndarray -> Later) (Data : ndarray)
    : outcome Later :=
  match nrow Data with
  | O => Raised
  | S _ => if constant_variables Data then Exited
           else Continued (cofs Data) (rest Data)
  end.

(** The real number a finite binary64 value stands for. *)
Definition F2R (f : float) : R :=
  match Prim2SF f with
  | S754_finite s m e =>
      IZR (if s then Zneg m else Zpos m)
      * (if (0 <=? e)%Z then IZR (2 ^ e) else / IZR (2 ^ (- e)))
  | _ => 0
  end.

(** The array of the exact values. *)
Definition exact (D : ndarray) : Tensor.tensor :=
  Tensor.mkT (nrow D) (ncol D) (map (map F2R) (rows D)).

(** *** Facts *)










(** *** The claim about the guard *)

Section Script.

Variable Later : Type.
Variable rest : ndarray -> Later.


End Script.

(** *** A run *)





(** Three samples of two features; the second feature is constant. *)
Definition Data_const : ndarray :=
  mkA 3 2 [[0%float; 5%float]; [1%float; 5%float]; [4%float; 5%float]].

Lemma Data_const_exits : script (fun _ => tt) Data_const = Exited.
Proof. vm_compute. reflexivity. Qed.


End Guard64.

(* ------------------------------------------------------------------ *)
(** ** [train_sffn] with the losses as Python floats *)

Module Train64.

Notation "x <? y" := (PrimFloat.ltb x y) : float_scope.

Section TrainSFFN.

Variable Params : Type.
Variable Opt : Type.
Variable Batch : Type.

(** [loss.item()] of [criterion(model(x_batch), x_batch)] at the current
    parameters: a Python float, NaN and the infinities included. *)
Variable loss_fn : Params -> Batch -> float.
(** [zero_grad(); loss.backward(); optimizer.step()] *)
Variable adam_step : Params -> Opt -> Batch -> Params * Opt.
(** [optim.Adam(model.parameters(), lr=lr)] *)
Variable adam_init : Opt.
(** [len(dataset)], the number of rows of [data]. *)
Variable N : nat.
(** [for batch in loader]: the mini-batches of an epoch. *)
Variable loader : nat -> list Batch.

Variable model : Train.module.
Variable max_iters : Z.
Variable tol : float.

(** The local variables of [train_sffn], and the store its updates act on. *)
Record locals : Type := mkLocals {
  heap : Train.store Params;
  opt : Opt;
  best_loss : float;
  best_state : option Train.state_dict;
  loss_values : list float;
  num_iter : Z
}.

(** [best_loss = float('inf')], [best_state = None], [loss_values = []],
    [num_iter = 0]. *)
Definition init (h : Train.store Params) : locals :=
  mkLocals h adam_init PrimFloat.infinity None [] 0.

(** The loop body up to and including "Track best". *)
Definition batch_body (s : locals) (batch : Batch) : locals :=
  let num_iter' := (num_iter s + 1)%Z in
  let w := heap s (Train.W model) in
  let cur_loss := loss_fn w batch in
  let (w', opt') := adam_step w (opt s) batch in
  let heap' := Train.write Params (heap s) (Train.W model) w' in
  let loss_values' := loss_values s ++ [cur_loss] in
  if (cur_loss <? best_loss s)%float
  then mkLocals heap' opt' cur_loss (Some (Train.get_state_dict model))
                loss_values' num_iter'
  else mkLocals heap' opt' (best_loss s) (best_state s) loss_values' num_iter'.

(** [best_loss < tol or num_iter >= max_iters] *)
Definition stop (s : locals) : bool :=
  (best_loss s <? tol)%float || (max_iters <=? num_iter s)%Z.

(** [for batch in loader: ...; if stop: break] *)
Fixpoint batch_loop (batches : list Batch) (s : locals) : locals :=
  match batches with
  | [] => s
  | batch :: rest =>
      let s' := batch_body s batch in
      if stop s' then s' else batch_loop rest s'
  end.

(** [for epoch in range(...): <batch loop>; if stop: break] *)
Fixpoint epoch_loop (n epoch : nat) (s : locals) : locals :=
  match n with
  | O => s
  | S n' =>
      let s' := batch_loop (loader epoch) s in
      if stop s' then s' else epoch_loop n' (S epoch) s'
  end.

(** "Hard cap of 10k epochs" *)
Definition epoch_cap : nat := Z.to_nat 10000.

(** [train_sffn].  [DataLoader(dataset, batch_size=batch_size,
    shuffle=True)] builds a [RandomSampler], which raises [ValueError] on
    a dataset without samples: [None].  Otherwise the returned tuple is
    [(best_state, best_loss, loss_values, num_iter)] of the result. *)
Definition train_sffn (h : Train.store Params) : option locals :=
  match N with
  | O => None
  | S _ => Some (epoch_loop epoch_cap 0 (init h))
  end.

(** The mini-batches of [n] epochs from [epoch] on, in the order drawn. *)
Definition batches (n epoch : nat) : list Batch :=
  flat_map loader (seq epoch n).

(** The losses of successive updates on the mini-batches [bs], from
    parameters [w] and optimizer state [o]. *)
Fixpoint losses_along (bs : list Batch) (w : Params) (o : Opt) : list float :=
  match bs with
  | [] => []
  | b :: rest =>
      loss_fn w b :: losses_along rest (fst (adam_step w o b))
                                       (snd (adam_step w o b))
  end.

(** Updates on all of [bs], with no exit test. *)
Definition steps (bs : list Batch) (s : locals) : locals :=
  fold_left batch_body bs s.

(** *** One pass through the loop body *)

Lemma returned (A : Type) (a b : A) : Some a = Some b -> a = b.
Proof. intros H. now injection H. Qed.

Lemma train_sffn_returns (h : Train.store Params) (r : locals) :
  train_sffn h = Some r -> r = epoch_loop epoch_cap 0 (init h).
Proof.
  unfold train_sffn. destruct N as [|n]; [discriminate|].
  intros H. symmetry. exact (returned _ _ _ H).
Qed.

Lemma num_iter_step (s : locals) (b : Batch) :
  num_iter (batch_body s b) = (num_iter s + 1)%Z.
Proof.
  unfold batch_body. destruct (adam_step _ _ _), (PrimFloat.ltb _ _); reflexivity.
Qed.

Lemma loss_values_step (s : locals) (b : Batch) :
  loss_values (batch_body s b)
  = loss_values s ++ [loss_fn (heap s (Train.W model)) b].
Proof.
  unfold batch_body. destruct (adam_step _ _ _), (PrimFloat.ltb _ _); reflexivity.
Qed.

Lemma best_loss_step (s : locals) (b : Batch) :
  best_loss (batch_body s b)
  = let c := loss_fn (heap s (Train.W model)) b in
    if (c <? best_loss s)%float then c else best_loss s.
Proof.
  unfold batch_body. destruct (adam_step _ _ _). simpl.
  destruct (PrimFloat.ltb _ _); reflexivity.
Qed.

Lemma heap_step (s : locals) (b : Batch) :
  heap (batch_body s b) (Train.W model)
  = fst (adam_step (heap s (Train.W model)) (opt s) b).
Proof.
  unfold batch_body. destruct (adam_step _ _ _), (PrimFloat.ltb _ _); simpl;
    unfold Train.write; now rewrite Nat.eqb_refl.
Qed.

Lemma opt_step (s : locals) (b : Batch) :
  opt (batch_body s b) = snd (adam_step (heap s (Train.W model)) (opt s) b).
Proof.
  unfold batch_body. destruct (adam_step _ _ _), (PrimFloat.ltb _ _); reflexivity.
Qed.

(** *** The run as a prefix of the mini-batch sequence *)

Lemma length_losses_along (bs : list Batch) (w : Params) (o : Opt) :
  length (losses_along bs w o) = length bs.
Proof.
  revert w o. induction bs as [|b bs IH]; intros w o; simpl; [reflexivity|].
  now rewrite IH.
Qed.

Lemma loss_values_steps (bs : list Batch) (s : locals) :
  loss_values (steps bs s)
  = loss_values s ++ losses_along bs (heap s (Train.W model)) (opt s).
Proof.
  unfold steps. revert s. induction bs as [|b bs IH]; intros s; simpl.
  - now rewrite app_nil_r.
  - rewrite IH, loss_values_step, heap_step, opt_step, <- app_assoc.
    reflexivity.
Qed.

Lemma num_iter_steps (bs : list Batch) (s : locals) :
  num_iter (steps bs s) = (num_iter s + Z.of_nat (length bs))%Z.
Proof.
  unfold steps. revert s. induction bs as [|b bs IH]; intros s; simpl length.
  - simpl. lia.
  - simpl fold_left. rewrite IH, num_iter_step. lia.
Qed.

Lemma batch_loop_prefix (bs : list Batch) (s : locals) :
  exists k, (k <= length bs)%nat /\
            batch_loop bs s = steps (firstn k bs) s /\
            (stop (batch_loop bs s) = false -> k = length bs).
Proof.
  revert s. induction bs as [|b bs IH]; intros s.
  - exists 0%nat. repeat split; reflexivity.
  - simpl batch_loop. destruct (stop (batch_body s b)) eqn:Es.
    + exists 1%nat. split; [simpl; lia|]. split; [reflexivity|]. congruence.
    + destruct (IH (batch_body s b)) as (k & Hk & Ek & Hfull).
      exists (S k). split; [simpl; lia|]. split; [exact Ek|].
      intros H. simpl. f_equal. now apply Hfull.
Qed.

Lemma epoch_loop_prefix (n e : nat) (s : locals) :
  exists k, (k <= length (batches n e))%nat /\
            epoch_loop n e s = steps (firstn k (batches n e)) s.
Proof.
  revert e s. induction n as [|n IH]; intros e s.
  - exists 0%nat. split; reflexivity.
  - simpl epoch_loop.
    change (batches (S n) e) with (loader e ++ batches n (S e)).
    destruct (batch_loop_prefix (loader e) s) as (k1 & Hk1 & E1 & Hfull).
    destruct (stop (batch_loop (loader e) s)) eqn:Es.
    + exists k1. split; [rewrite length_app; lia|].
      rewrite firstn_app.
      replace (k1 - length (loader e))%nat with 0%nat by lia.
      simpl firstn at 2. now rewrite app_nil_r.
    + specialize (Hfull eq_refl). subst k1.
      rewrite firstn_all in E1.
      destruct (IH (S e) (batch_loop (loader e) s)) as (k2 & Hk2 & E2).
      exists (length (loader e) + k2)%nat.
      split; [rewrite length_app; lia|].
      rewrite firstn_app_2, E2, E1. unfold steps.
      now rewrite fold_left_app.
Qed.

(** *** Iterations only go up *)

Lemma batch_loop_num_iter (bs : list Batch) (s : locals) :
  (num_iter s <= num_iter (batch_loop bs s))%Z /\
  (bs <> [] -> (num_iter s + 1 <= num_iter (batch_loop bs s))%Z).
Proof.
  revert s. induction bs as [|b bs IH]; intros s.
  - split; [simpl; lia | congruence].
  - simpl batch_loop.
    destruct (IH (batch_body s b)) as [Hle _].
    rewrite num_iter_step in Hle.
    destruct (stop (batch_body s b)); rewrite ?num_iter_step; split; intros; lia.
Qed.

Lemma epoch_loop_num_iter (n e : nat) (s : locals) :
  (num_iter s <= num_iter (epoch_loop n e s))%Z.
Proof.
  revert e s. induction n as [|n IH]; intros e s; simpl; [lia|].
  pose proof (batch_loop_num_iter (loader e) s) as [Hle _].
  destruct (stop (batch_loop (loader e) s)); [exact Hle|].
  specialize (IH (S e) (batch_loop (loader e) s)). lia.
Qed.

Lemma epoch_cap_positive : epoch_cap = S (Nat.pred epoch_cap).
Proof. unfold epoch_cap. lia. Qed.

Lemma first_epoch_updates (h : Train.store Params) :
  loader 0 <> [] -> (1 <= num_iter (epoch_loop epoch_cap 0 (init h)))%Z.
Proof.
  intros Hl. rewrite epoch_cap_positive.
  generalize (Nat.pred epoch_cap). intros n. simpl epoch_loop.
  pose proof (batch_loop_num_iter (loader 0) (init h)) as [_ H1].
  specialize (H1 Hl). change (num_iter (init h)) with 0%Z in H1.
  destruct (stop (batch_loop (loader 0) (init h))); [lia|].
  pose proof (epoch_loop_num_iter n 1 (batch_loop (loader 0) (init h))). lia.
Qed.

(** *** The best loss *)

(** No recorded loss is below [best_loss], which is not NaN and is either
    a recorded loss or still [float('inf')]. *)
Definition lowest (s : locals) : Prop :=
  Forall (fun c => (c <? best_loss s)%float = false) (loss_values s) /\
  PrimFloat.is_nan (best_loss s) = false /\
  (In (best_loss s) (loss_values s) \/ best_loss s = PrimFloat.infinity).

Lemma lowest_init (h : Train.store Params) : lowest (init h).
Proof.
  split; [constructor|]. split; [reflexivity|]. now right.
Qed.

Lemma lowest_body (s : locals) (b : Batch) :
  lowest s -> lowest (batch_body s b).
Proof.
  intros (Hlow & Hnan & Hin). unfold lowest.
  rewrite loss_values_step, best_loss_step.
  set (c := loss_fn (heap s (Train.W model)) b). cbv zeta.
  destruct (c <? best_loss s)%float eqn:Ec.
  - split; [|split].
    + apply Forall_app. split.
      * apply Forall_forall. intros x Hx.
        rewrite Forall_forall in Hlow. specialize (Hlow x Hx).
        destruct (x <? c)%float eqn:Exc; [|reflexivity].
        rewrite (Float64.ltb_trans x c (best_loss s) Exc Ec) in Hlow.
        discriminate.
      * constructor; [apply Float64.ltb_irrefl | constructor].
    + exact (proj1 (Float64.ltb_not_nan _ _ Ec)).
    + left. apply in_or_app. right. now left.
  - split; [|split].
    + apply Forall_app. split; [exact Hlow|].
      constructor; [exact Ec | constructor].
    + exact Hnan.
    + destruct Hin as [Hin | Hinf]; [left | now right].
      apply in_or_app. now left.
Qed.

Lemma lowest_steps (bs : list Batch) (s : locals) :
  lowest s -> lowest (steps bs s).
Proof.
  unfold steps. revert s. induction bs as [|b bs IH]; intros s Hs; simpl.
  - exact Hs.
  - apply IH. now apply lowest_body.
Qed.

Lemma lowest_epoch_loop (n e : nat) (s : locals) :
  lowest s -> lowest (epoch_loop n e s).
Proof.
  intros Hs. destruct (epoch_loop_prefix n e s) as (k & _ & ->).
  now apply lowest_steps.
Qed.

(** Among losses that are not NaN, one that nothing is below is attained
    unless the list is empty. *)
Lemma infinity_attained (l : list float) :
  l <> [] ->
  Forall (fun c => PrimFloat.is_nan c = false) l ->
  Forall (fun c => (c <? PrimFloat.infinity)%float = false) l ->
  In PrimFloat.infinity l.
Proof.
  destruct l as [|c l]; [congruence|]. intros _ Hn Hl.
  inversion Hn as [|? ? Hc _]. inversion Hl as [|? ? Hci _]. subst.
  left. now apply Float64.not_below_infinity.
Qed.

(** *** The tolerance exit *)

Lemma Forall_removelast (P : float -> Prop) (l : list float) :
  Forall P l -> Forall P (removelast l).
Proof.
  induction 1 as [|a l Ha Hl IH]; [constructor|].
  simpl. destruct l; [constructor | now constructor].
Qed.

(** No loss below the tolerance has been seen. *)
Definition quiet (s : locals) : Prop :=
  (best_loss s <? tol)%float = false /\
  PrimFloat.is_nan (best_loss s) = false /\
  Forall (fun c => (c <? tol)%float = false) (loss_values s).

(** At most the last loss is below the tolerance, and then it is the best. *)
Definition settled (s : locals) : Prop :=
  Forall (fun c => (c <? tol)%float = false) (removelast (loss_values s)) /\
  ((best_loss s <? tol)%float = true ->
   loss_values s <> [] /\
   best_loss s = last (loss_values s) PrimFloat.nan /\
   (last (loss_values s) PrimFloat.nan <? tol)%float = true).

Lemma quiet_settled (s : locals) : quiet s -> settled s.
Proof.
  intros (Hb & _ & Hall). split; [now apply Forall_removelast | congruence].
Qed.

Lemma settled_body (s : locals) (b : Batch) :
  quiet s ->
  settled (batch_body s b) /\
  (stop (batch_body s b) = false -> quiet (batch_body s b)).
Proof.
  intros (Hb & Hnan & Hall). unfold settled, quiet, stop.
  rewrite loss_values_step, best_loss_step.
  set (c := loss_fn (heap s (Train.W model)) b). cbv zeta.
  rewrite removelast_last, last_last.
  destruct (c <? best_loss s)%float eqn:Ec.
  - split; [split; [exact Hall|]|].
    + intros Hlt. split; [now destruct (loss_values s) | now split].
    + intros Hs. apply orb_false_iff in Hs as [Hs _]. split; [exact Hs|].
      split; [exact (proj1 (Float64.ltb_not_nan _ _ Ec))|].
      apply Forall_app. split; [exact Hall|]. constructor; [exact Hs | constructor].
  - split; [split; [exact Hall | congruence]|].
    intros _. split; [exact Hb|]. split; [exact Hnan|].
    apply Forall_app. split; [exact Hall|]. constructor; [|constructor].
    destruct (c <? tol)%float eqn:Ect; [|reflexivity].
    rewrite (Float64.ltb_below c (best_loss s) tol Ect Ec Hnan) in Hb.
    discriminate.
Qed.

Lemma settled_batch_loop (bs : list Batch) (s : locals) :
  quiet s ->
  settled (batch_loop bs s) /\
  (stop (batch_loop bs s) = false -> quiet (batch_loop bs s)).
Proof.
  revert s. induction bs as [|b bs IH]; intros s Hq; simpl.
  - split; [now apply quiet_settled | intros _; exact Hq].
  - destruct (settled_body s b Hq) as [Hs Hq'].
    destruct (stop (batch_body s b)) eqn:Es.
    + split; [exact Hs | congruence].
    + apply IH, Hq'. reflexivity.
Qed.

Lemma settled_epoch_loop (n e : nat) (s : locals) :
  quiet s -> settled (epoch_loop n e s).
Proof.
  revert e s. induction n as [|n IH]; intros e s Hq; simpl.
  - now apply quiet_settled.
  - destruct (settled_batch_loop (loader e) s Hq) as [Hs Hq'].
    destruct (stop (batch_loop (loader e) s)) eqn:Es; [exact Hs|].
    apply IH, Hq'. reflexivity.
Qed.

(** *** The claims about the returned losses *)

(** C4 (amended): when [train_sffn] returns, [loss_values] holds the
    losses of the updates made, in order: one per update, each the loss
    of its mini-batch at the parameters the preceding updates left, so
    its length is [num_iter]; a first epoch with a mini-batch makes at
    least one update; no recorded loss is below [best_loss]; and in a run
    with at least one update whose recorded losses are not NaN,
    [best_loss] is one of the recorded losses, hence their minimum. *)
Theorem best_loss_is_min_unless_nan (h : Train.store Params) (r : locals) :
  train_sffn h = Some r ->
  Z.of_nat (length (loss_values r)) = num_iter r /\
  loss_values r
  = losses_along (firstn (Z.to_nat (num_iter r)) (batches epoch_cap 0))
                 (h (Train.W model)) adam_init /\
  (loader 0 <> [] -> (1 <= num_iter r)%Z) /\
  Forall (fun c => (c <? best_loss r)%float = false) (loss_values r) /\
  ((1 <= num_iter r)%Z ->
   Forall (fun c => PrimFloat.is_nan c = false) (loss_values r) ->
   In (best_loss r) (loss_values r)).
Proof.
  intros Hr. apply train_sffn_returns in Hr. subst r.
  destruct (epoch_loop_prefix epoch_cap 0 (init h)) as (k & Hk & Ek).
  pose proof (lowest_epoch_loop epoch_cap 0 (init h) (lowest_init h))
    as (Hlow & _ & Hin).
  pose proof (first_epoch_updates h) as Hfirst.
  revert Hlow Hin Hfirst. rewrite Ek. intros Hlow Hin Hfirst.
  assert (Hnum : num_iter (steps (firstn k (batches epoch_cap 0)) (init h))
                 = Z.of_nat k).
  { rewrite num_iter_steps, length_firstn.
    change (num_iter (init h)) with 0%Z. lia. }
  assert (Hvals : loss_values (steps (firstn k (batches epoch_cap 0)) (init h))
                  = losses_along (firstn k (batches epoch_cap 0))
                                 (h (Train.W model)) adam_init).
  { now rewrite loss_values_steps. }
  split; [|split; [|split; [|split]]].
  - rewrite Hvals, length_losses_along, length_firstn, Hnum. lia.
  - rewrite Hnum, Nat2Z.id. exact Hvals.
  - exact Hfirst.
  - exact Hlow.
  - intros H1 Hnn. destruct Hin as [Hin | Hinf]; [exact Hin|].
    rewrite Hinf in *. apply infinity_attained; [|exact Hnn|exact Hlow].
    intros E. rewrite Hvals in E.
    apply (f_equal (@length float)) in E.
    rewrite length_losses_along, length_firstn in E.
    change (length (@nil float)) with 0%nat in E. lia.
Qed.

(** Every recorded loss except possibly the last is not below tol (a NaN
    loss is not), since the loop never continues after a loss below the
    tolerance; and on the tolerance exit the best loss is the last
    recorded loss, so the step that achieved best_loss is the final step
    of the run. *)
Theorem tolerance_exit_is_final_step (h : Train.store Params) (r : locals) :
  train_sffn h = Some r ->
  Forall (fun c => (c <? tol)%float = false) (removelast (loss_values r)) /\
  ((best_loss r <? tol)%float = true ->
   loss_values r <> [] /\
   best_loss r = last (loss_values r) PrimFloat.nan /\
   (last (loss_values r) PrimFloat.nan <? tol)%float = true).
Proof.
  intros Hr. apply train_sffn_returns in Hr. subst r.
  assert (Hq : quiet (init h)).
  { split; [apply Float64.infinity_not_below|].
    split; [reflexivity | constructor]. }
  exact (settled_epoch_loop epoch_cap 0 (init h) Hq).
Qed.

End TrainSFFN.

Arguments heap {Params Opt}.
Arguments opt {Params Opt}.
Arguments best_loss {Params Opt}.
Arguments best_state {Params Opt}.
Arguments loss_values {Params Opt}.
Arguments num_iter {Params Opt}.
Arguments init {Params Opt}.
Arguments epoch_loop {Params Opt Batch}.
Arguments train_sffn {Params Opt Batch}.
Arguments batches {Batch}.
Arguments losses_along {Params Opt Batch}.

(** *** Runs *)

(** The parameter counts the updates made so far; 192 samples, so every
    epoch has three mini-batches of 64. *)
Definition model0 : Train.module := Train.mkModule 0%nat.
Definition h0 : Train.store Z := fun _ => 0%Z.
Definition step0 (w : Z) (o : unit) (_ : unit) : Z * unit := ((w + 1)%Z, o).
Definition three_batches (_ : nat) : list unit := [tt; tt; tt].

(** [tol = 1e-9] *)
Definition tol0 : float := 0x1.12e0be826d695p-30%float.

(** The loss of the update after [w] earlier ones, read off a table. *)
Definition table_loss (table : list float) (w : Z) (_ : unit) : float :=
  nth (Z.to_nat w) table PrimFloat.nan.

Definition nan_loss : Z -> unit -> float := table_loss [].

(** C4, as stated, fails when the losses are NaN: with
    [max_iters = 3] and every loss NaN the run makes three updates and
    returns [best_loss = inf], [best_state = None] and
    [loss_values = [nan, nan, nan]]; [best_loss] is none of the recorded
    losses. *)
Lemma nan_losses_leave_best_loss_infinite :
  exists r,
    train_sffn nan_loss step0 tt 192 three_batches model0 3 tol0 h0 = Some r /\
    num_iter r = 3%Z /\
    loss_values r = [PrimFloat.nan; PrimFloat.nan; PrimFloat.nan] /\
    best_loss r = PrimFloat.infinity /\
    best_state r = None /\
    ~ In (best_loss r) (loss_values r).
Proof.
  eexists. split; [reflexivity|].
  split; [vm_compute; reflexivity|].
  split; [vm_compute; reflexivity|].
  split; [vm_compute; reflexivity|].
  split; [vm_compute; reflexivity|].
  replace (loss_values _)
    with [PrimFloat.nan; PrimFloat.nan; PrimFloat.nan] by (vm_compute; reflexivity).
  replace (best_loss _) with PrimFloat.infinity by (vm_compute; reflexivity).
  intros Hin.
  assert (Hnan : Forall (fun c => PrimFloat.is_nan c = true)
                        [PrimFloat.nan; PrimFloat.nan; PrimFloat.nan])
    by (repeat constructor).
  rewrite Forall_forall in Hnan. specialize (Hnan _ Hin).
  vm_compute in Hnan. discriminate.
Qed.

(** Three updates with losses 3, 1, 2. *)
Definition losses312 : list float := [3%float; 1%float; 2%float].

Lemma best_loss_is_min_unless_nan_witness :
  exists r,
    train_sffn (table_loss losses312) step0 tt 192 three_batches model0 3 tol0 h0
      = Some r /\
    (1 <= num_iter r)%Z /\
    Forall (fun c => PrimFloat.is_nan c = false) (loss_values r) /\
    loss_values r = losses312 /\
    best_loss r = 1%float /\
    Z.of_nat (length (loss_values r)) = num_iter r /\
    loss_values r
    = losses_along (table_loss losses312) step0
        (firstn (Z.to_nat (num_iter r)) (batches three_batches epoch_cap 0))
        (h0 (Train.W model0)) tt /\
    (three_batches 0 <> [] -> (1 <= num_iter r)%Z) /\
    Forall (fun c => (c <? best_loss r)%float = false) (loss_values r) /\
    In (best_loss r) (loss_values r).
Proof.
  eexists.
  assert (Hr : train_sffn (table_loss losses312) step0 tt 192 three_batches
                 model0 3 tol0 h0
               = Some (epoch_loop (table_loss losses312) step0 three_batches
                         model0 3 tol0 epoch_cap 0 (init tt h0))) by reflexivity.
  split; [exact Hr|].
  assert (H1 : (1 <= num_iter (epoch_loop (table_loss losses312) step0 three_batches
                         model0 3 tol0 epoch_cap 0 (init tt h0)))%Z)
    by (vm_compute; discriminate).
  assert (Hv : loss_values (epoch_loop (table_loss losses312) step0 three_batches
                         model0 3 tol0 epoch_cap 0 (init tt h0)) = losses312)
    by (vm_compute; reflexivity).
  assert (Hn : Forall (fun c => PrimFloat.is_nan c = false)
                 (loss_values (epoch_loop (table_loss losses312) step0 three_batches
                         model0 3 tol0 epoch_cap 0 (init tt h0))))
    by (rewrite Hv; repeat constructor).
  split; [exact H1|]. split; [exact Hn|]. split; [exact Hv|].
  split; [vm_compute; reflexivity|].
  destruct (best_loss_is_min_unless_nan Z unit unit (table_loss losses312)
              step0 tt 192 three_batches model0 3 tol0 h0 _ Hr)
    as (Hlen & Htraj & Hfirst & Hlow & Hmin).
  split; [exact Hlen|]. split; [exact Htraj|]. split; [exact Hfirst|].
  split; [exact Hlow|]. exact (Hmin H1 Hn).
Defined.

(** Losses 3, 2, 0: the third update ends the run by the tolerance. *)
Definition losses320 : list float := [3%float; 2%float; 0%float; 5%float].

Lemma tolerance_exit_is_final_step_witness :
  exists r,
    train_sffn (table_loss losses320) step0 tt 192 three_batches model0 10 tol0 h0
      = Some r /\
    loss_values r = [3%float; 2%float; 0%float] /\
    (best_loss r <? tol0)%float = true /\
    Forall (fun c => (c <? tol0)%float = false) (removelast (loss_values r)) /\
    loss_values r <> [] /\
    best_loss r = last (loss_values r) PrimFloat.nan /\
    (last (loss_values r) PrimFloat.nan <? tol0)%float = true.
Proof.
  eexists.
  assert (Hr : train_sffn (table_loss losses320) step0 tt 192 three_batches
                 model0 10 tol0 h0
               = Some (epoch_loop (table_loss losses320) step0 three_batches
                         model0 10 tol0 epoch_cap 0 (init tt h0))) by reflexivity.
  split; [exact Hr|].
  split; [vm_compute; reflexivity|].
  assert (Hb : (best_loss (epoch_loop (table_loss losses320) step0 three_batches
                         model0 10 tol0 epoch_cap 0 (init tt h0)) <? tol0)%float = true)
    by (vm_compute; reflexivity).
  split; [exact Hb|].
  destruct (tolerance_exit_is_final_step Z unit unit (table_loss losses320)
              step0 tt 192 three_batches model0 10 tol0 h0 _ Hr)
    as (Hall & Hlast).
  split; [exact Hall|]. exact (Hlast Hb).
Defined.

End Train64.
